(** * Regression targeting: ontology lookup and target filters

    A shallow embedding of [medcat/utils/regression/targeting.py]:
    [TargetInfo], [TranslationLayer], [FilterStrategy], [FilterType],
    [TypedFilter], [FilterOptions] and [CUIWithChildFilter].

    Conventions of the embedding.
    - A Python [Dict[str, Set[str]]] is a [gmap string (gset string)];
      iterating a set is iterating [elements], iterating a dict is
      iterating [map_to_list]: some fixed order nobody may rely on.
    - A configuration dict that is iterated in insertion order is an
      association list.
    - A generator is the finite trace it produces: the values it yields,
      in order, and the way it stops (exhausted, or an exception).
    - A function that may raise returns a [result]. *)

From Stdlib Require Import ZArith Ascii String.
From stdpp Require Import gmap strings list fin_maps.

Open Scope string_scope.
Open Scope list_scope.
Open Scope Z_scope.

(** ** Exceptions *)

(** [KeyError] is the failed subscript of a dict (the specification's
    NotFoundError), [ValueError] the misconfiguration raised by
    [one_from_input] (the specification's ConfigurationError).
    [NoEnumMatch] stands for whatever [loosely_match_enum] raises when no
    member matches, [ValidationError] for a field rejected by pydantic. *)
Inductive exn : Type :=
  | KeyError (key : string)
  | ValueError (msg : string)
  | NoEnumMatch (name : string)
  | ValidationError.

Definition result (A : Type) : Type := exn + A.

Definition ret {A} (x : A) : result A := inr x.
Definition throw {A} (e : exn) : result A := inl e.
Definition rbind {A B} (m : result A) (k : A → result B) : result B :=
  match m with
  | inl e => inl e
  | inr x => k x
  end.

Notation "'let!' x ':=' m 'in' k" := (rbind m (fun x => k))
  (at level 10, x name, m at level 100, k at level 200).

(** ** Generators *)

Module Gen.

(** The trace of a generator: what it yielded, then how it stopped
    ([None]: exhausted, [Some e]: it raised [e]). *)
Record t (A : Type) : Type := Mk { yields : list A; outcome : option exn }.
Arguments Mk {A} _ _.
Arguments yields {A} _.
Arguments outcome {A} _.

Definition done {A} : t A := Mk [] None.
Definition yield {A} (x : A) : t A := Mk [x] None.
Definition raise {A} (e : exn) : t A := Mk [] (Some e).

(** [g1] then [g2]; [g2] does not run when [g1] raised. *)
Definition seq {A} (g1 g2 : t A) : t A :=
  match outcome g1 with
  | None => Mk (yields g1 ++ yields g2) (outcome g2)
  | Some e => g1
  end.

(** [for x in l: body x] over a list that is already there. *)
Fixpoint for_list {A B} (l : list A) (body : A → t B) : t B :=
  match l with
  | [] => done
  | x :: l' => seq (body x) (for_list l' body)
  end.

(** [for x in g: body x] over another generator: the body runs on every
    value [g] yields; what stopped [g] stops the loop. *)
Definition for_gen {A B} (g : t A) (body : A → t B) : t B :=
  seq (for_list (yields g) body) (Mk [] (outcome g)).

End Gen.

(** ** TargetInfo *)

(** The two attributes of a [TargetInfo]. *)
Record TargetInfo : Type := mkTargetInfo { cui : string; val : string }.

Global Instance TargetInfo_eq_dec : EqDecision TargetInfo.
Proof. solve_decision. Defined.

(** The class defines [__init__], [__str__] and [__repr__] only, so [==] on
    two instances is the one inherited from [object]: identity.  To speak
    about it, instances live in a store and are named by references; the
    generators below yield [TargetInfo] values (they never compare them). *)
Module Obj.

Definition ref : Type := nat.
Definition store : Type := list TargetInfo.

(** [TargetInfo(cui, val)]: a new object, and its reference. *)
Definition new (h : store) (c v : string) : ref * store :=
  (List.length h, h ++ [mkTargetInfo c v]).

Definition get (h : store) (r : ref) : option TargetInfo := h !! r.

(** [a == b], that is [object.__eq__]: [a is b]. *)
Definition py_eq (a b : ref) : bool := Nat.eqb a b.

(** Both attributes compare equal (string [==]). *)
Definition same_fields (h : store) (a b : ref) : bool :=
  match get h a, get h b with
  | Some x, Some y => bool_decide (cui x = cui y) && bool_decide (val x = val y)
  | _, _ => false
  end.

End Obj.

(** ** TranslationLayer *)

Record TranslationLayer : Type := mkTranslationLayer {
  cui2names : gmap string (gset string);
  name2cuis : gmap string (gset string);
  cui2type_ids : gmap string (gset string);
  cui2children : gmap string (gset string)
}.

(** One step of the constructor's loop:
    [if cui not in cui2children: self.cui2children[cui] = set()]. *)
Definition default_children (ch : gmap string (gset string)) (c : string)
  : gmap string (gset string) :=
  match ch !! c with
  | None => <[c := ∅]> ch
  | Some _ => ch
  end.

(** [TranslationLayer.__init__]. *)
Definition TranslationLayer_init
    (names n2c types children : gmap string (gset string)) : TranslationLayer :=
  mkTranslationLayer names n2c types
    (foldl default_children children (map_to_list names).*1).

(** [TranslationLayer.targets_for]. *)
Definition targets_for (t : TranslationLayer) (c : string) : Gen.t TargetInfo :=
  match cui2names t !! c with
  | None => Gen.raise (KeyError c)
  | Some names =>
      Gen.for_list (elements names) (fun name => Gen.yield (mkTargetInfo c name))
  end.

(** [TranslationLayer.all_targets]. *)
Definition all_targets (t : TranslationLayer) : Gen.t TargetInfo :=
  Gen.for_list (map_to_list (cui2names t)) (fun '(c, names) =>
    Gen.for_list (elements names) (fun name => Gen.yield (mkTargetInfo c name))).

(** [x in xs] for an iterable of strings. *)
Definition py_in (x : string) (xs : list string) : bool := bool_decide (x ∈ xs).

(** [TranslationLayer.has_child_of].  [fuel] bounds the depth of the call
    stack; [has_child_of_unfold] below shows that the bound chosen in
    [has_child_of] is never reached. *)
Fixpoint has_child_of_fuel (fuel : nat) (t : TranslationLayer)
    (found_cuis : list string) (c : string) (depth : Z) : bool :=
  match cui2children t !! c with
  | None => false
  | Some children =>
      if existsb (fun child => py_in child found_cuis) (elements children)
      then true
      else if 1 <? depth then
        match fuel with
        | O => false
        | S fuel' =>
            existsb (fun child => has_child_of_fuel fuel' t found_cuis child (depth - 1))
                    (elements children)
        end
      else false
  end.

Definition has_child_of (t : TranslationLayer) (found_cuis : list string)
    (c : string) (depth : Z) : bool :=
  has_child_of_fuel (Z.to_nat depth) t found_cuis c depth.

(** [TranslationLayer.has_parent_of]. *)
Definition has_parent_of (t : TranslationLayer) (found_cuis : list string)
    (c : string) (depth : Z) : bool :=
  existsb (fun found_cui => has_child_of t [c] found_cui depth) found_cuis.

(** ** FilterStrategy and FilterType *)

Inductive FilterStrategy : Type := ALL | ANY.

Inductive FilterType : Type := TYPE_ID | CUI | NAME | CUI_AND_CHILDREN.

Global Instance FilterStrategy_eq_dec : EqDecision FilterStrategy.
Proof. solve_decision. Defined.

Global Instance FilterType_eq_dec : EqDecision FilterType.
Proof. solve_decision. Defined.

(** The [name] attribute of the enum members. *)
Definition FilterStrategy_name (s : FilterStrategy) : string :=
  match s with
  | ALL => "ALL"
  | ANY => "ANY"
  end.

Definition FilterType_name (k : FilterType) : string :=
  match k with
  | TYPE_ID => "TYPE_ID"
  | CUI => "CUI"
  | NAME => "NAME"
  | CUI_AND_CHILDREN => "CUI_AND_CHILDREN"
  end.

(** ** Raw configuration values *)

(** What [one_from_input] and [from_dict] receive: a string, a list of
    strings, a dict, or (as the [depth] of a dict) an integer. *)
#[local] Unset Elimination Schemes.
Inductive pyval : Type :=
  | PStr (s : string)
  | PInt (z : Z)
  | PList (l : list string)
  | PDict (d : list (string * pyval)).
#[local] Set Elimination Schemes.

Section Subscript.
Context {A B : Type} (f : A → result B).

(** [f(d[k])]: the first entry under [k], or [KeyError]. *)
Fixpoint subscript_with (k : string) (d : list (string * A)) : result B :=
  match d with
  | [] => throw (KeyError k)
  | (k', v) :: d' => if String.eqb k k' then f v else subscript_with k d'
  end.
End Subscript.

(** [d[k]]. *)
Definition subscript {A} (k : string) (d : list (string * A)) : result A :=
  subscript_with ret k d.

(** ** Strings *)

(** [str.lower] on the ASCII letters. *)
Definition lower_ascii (a : ascii) : ascii :=
  let n := nat_of_ascii a in
  if ((65 <=? n) && (n <=? 90))%nat then ascii_of_nat (n + 32) else a.

Fixpoint lower (s : string) : string :=
  match s with
  | EmptyString => EmptyString
  | String a s' => String (lower_ascii a) (lower s')
  end.

(** [str(b)] for a bool. *)
Definition str_bool (b : bool) : string := if b then "True" else "False".

(** ** Filters *)

(** [TypedFilter] and its subclass [CUIWithChildFilter].  The constructors
    are the pydantic constructors: they check the types of the fields and
    nothing else. *)
Inductive Filter : Type :=
  | TypedFilter (type : FilterType) (values : list string)
  | CUIWithChildFilter (type : FilterType) (delegate : Filter) (depth : Z)
                       (values : list string).

Definition filter_type (f : Filter) : FilterType :=
  match f with
  | TypedFilter k _ => k
  | CUIWithChildFilter k _ _ _ => k
  end.

Definition filter_values (f : Filter) : list string :=
  match f with
  | TypedFilter _ vs => vs
  | CUIWithChildFilter _ _ _ vs => vs
  end.

Definition filter_delegate (f : Filter) : option Filter :=
  match f with
  | TypedFilter _ _ => None
  | CUIWithChildFilter _ d _ _ => Some d
  end.

Definition filter_depth (f : Filter) : option Z :=
  match f with
  | TypedFilter _ _ => None
  | CUIWithChildFilter _ _ n _ => Some n
  end.

(** [CUIWithChildFilter(type=k, delegate=d, depth=n)]: [values] takes the
    default of the class, and no field is checked against another. *)
Definition new_CUIWithChildFilter (k : FilterType) (d : Filter) (n : Z)
  : result Filter :=
  ret (CUIWithChildFilter k d n []).

(** [TypedFilter.get_applicable_targets].  The three [if]s of the source
    test one [self.type] against disjoint members, so one of them runs. *)
Definition TypedFilter_get_applicable_targets (type : FilterType)
    (values : list string) (translation : TranslationLayer)
    (in_gen : Gen.t TargetInfo) : Gen.t TargetInfo :=
  match type with
  | CUI | CUI_AND_CHILDREN =>
      Gen.for_gen in_gen (fun ti =>
        if py_in (cui ti) values then Gen.yield ti else Gen.done)
  | NAME =>
      Gen.for_gen in_gen (fun ti =>
        if py_in (val ti) values then Gen.yield ti else Gen.done)
  | TYPE_ID =>
      Gen.for_gen in_gen (fun ti =>
        let tids :=
          match cui2type_ids translation !! cui ti with
          | Some tids => tids
          | None => ∅
          end in
        Gen.for_list (elements tids) (fun tid =>
          if py_in tid values then Gen.yield ti else Gen.done))
  end.

(** [CUIWithChildFilter.get_children_of], [self_depth] being [self.depth].
    [fuel] bounds the depth of the call stack; [get_children_of_unfold]
    shows that the bound chosen in [get_children_of] is never reached. *)
Fixpoint get_children_of_fuel (fuel : nat) (self_depth : Z)
    (translation : TranslationLayer) (c : string) (cur_depth : Z)
  : Gen.t TargetInfo :=
  match cui2children translation !! c with
  | None => Gen.raise (KeyError c)
  | Some children =>
      Gen.for_list (elements children) (fun child =>
        Gen.seq (targets_for translation child)
          (if cur_depth <? self_depth then
             match fuel with
             | O => Gen.done
             | S fuel' =>
                 get_children_of_fuel fuel' self_depth translation child (cur_depth + 1)
             end
           else Gen.done))
  end.

Definition get_children_of (self_depth : Z) (translation : TranslationLayer)
    (c : string) (cur_depth : Z) : Gen.t TargetInfo :=
  get_children_of_fuel (Z.to_nat (self_depth - cur_depth)) self_depth
    translation c cur_depth.

(** [get_applicable_targets], dispatched on the class of the filter. *)
Fixpoint get_applicable_targets (f : Filter) (translation : TranslationLayer)
    (in_gen : Gen.t TargetInfo) : Gen.t TargetInfo :=
  match f with
  | TypedFilter type values =>
      TypedFilter_get_applicable_targets type values translation in_gen
  | CUIWithChildFilter _ delegate depth _ =>
      Gen.for_gen (get_applicable_targets delegate translation in_gen) (fun ti =>
        Gen.seq (Gen.yield ti) (get_children_of depth translation (cui ti) 1))
  end.

(** [to_dict], dispatched on the class of the filter. *)
Definition to_dict (f : Filter) : list (string * pyval) :=
  match f with
  | TypedFilter type values => [(FilterType_name type, PList values)]
  | CUIWithChildFilter type delegate depth _ =>
      [(FilterType_name type,
        PDict [("depth", PInt depth); ("cui", PList (filter_values delegate))])]
  end.

(** ** FilterOptions *)

Record FilterOptions : Type := mkFilterOptions {
  strategy : FilterStrategy;
  onlyprefnames : bool
}.

(** [FilterOptions.to_dict]. *)
Definition FilterOptions_to_dict (o : FilterOptions) : gmap string string :=
  <["prefname-only" := str_bool (onlyprefnames o)]>
    (<["strategy" := FilterStrategy_name (strategy o)]> ∅).

(** ** Construction from configuration *)

Section Parsing.

(** [FilterType.match_str] and [FilterStrategy.match_str] go through
    [loosely_match_enum] of [medcat.utils.regression.utils], and the
    [int] field [depth] through pydantic; neither is part of this file,
    so the three are parameters here. *)
Variable FilterType_match_str : string → option FilterType.
Variable FilterStrategy_match_str : string → option FilterStrategy.
Variable pydantic_int : pyval → option Z.

Definition match_type (name : string) : result FilterType :=
  match FilterType_match_str name with
  | Some k => ret k
  | None => throw (NoEnumMatch name)
  end.

Definition match_strategy (name : string) : result FilterStrategy :=
  match FilterStrategy_match_str name with
  | Some k => ret k
  | None => throw (NoEnumMatch name)
  end.

Definition validate_int (v : pyval) : result Z :=
  match pydantic_int v with
  | Some z => ret z
  | None => throw ValidationError
  end.

Definition misconfigured (target_type : string) : string :=
  "Misconfigured config for " +:+ target_type +:+
  ", expected either a value or a list of values for this type of filter".

(** [TypedFilter.one_from_input].  In the dict branch the second test
    [t_type is FilterType.CUI_AND_CHILDREN] follows the first and holds. *)
Fixpoint one_from_input (target_type : string) (vals : pyval) : result Filter :=
  let! t_type := match_type target_type in
  match vals with
  | PDict d =>
      if negb (bool_decide (t_type = CUI_AND_CHILDREN))
      then throw (ValueError (misconfigured target_type))
      else
        let! depth := subscript "depth" d in
        let! delegate := subscript_with (one_from_input target_type) "cui" d in
        let! depth := validate_int depth in
        ret (CUIWithChildFilter t_type delegate depth [])
  | PStr s => ret (TypedFilter t_type [s])
  | PList l => ret (TypedFilter t_type l)
  | PInt _ => throw ValidationError
  end.

(** [TypedFilter.from_dict]. *)
Fixpoint from_dict (input : list (string * pyval)) : result (list Filter) :=
  match input with
  | [] => ret []
  | (target_type, vals) :: input' =>
      let! filt := one_from_input target_type vals in
      let! parsed_targets := from_dict input' in
      ret (filt :: parsed_targets)
  end.

(** [FilterOptions.from_dict]. *)
Definition FilterOptions_from_dict (section : gmap string string)
  : result FilterOptions :=
  let! strategy :=
    match section !! "strategy" with
    | Some s => match_strategy s
    | None => ret ALL
    end in
  let onlyprefnames :=
    match section !! "prefname-only" with
    | Some s => String.eqb (lower s) "true"
    | None => false
    end in
  ret (mkFilterOptions strategy onlyprefnames).

End Parsing.

(** ASCII white space. *)
Definition is_space (a : ascii) : bool :=
  let n := nat_of_ascii a in
  ((n =? 32) || ((9 <=? n) && (n <=? 13)))%nat.

Fixpoint drop_spaces (s : string) : string :=
  match s with
  | EmptyString => EmptyString
  | String a s' => if is_space a then drop_spaces s' else String a (drop_spaces s')
  end.

Definition loose_key (s : string) : string := lower (drop_spaces s).

(** Modelled from the spec: [loosely_match_enum] of
    [medcat.utils.regression.utils] is not in this file; the specification
    has it match a free-form string against the member names by a
    case-insensitive, whitespace-normalized comparison. *)
Definition loosely_match_enum {E} (members : list E) (name_of : E → string)
    (name : string) : option E :=
  find (fun e => String.eqb (loose_key (name_of e)) (loose_key name)) members.

Definition loose_type : string → option FilterType :=
  loosely_match_enum [TYPE_ID; CUI; NAME; CUI_AND_CHILDREN] FilterType_name.

Definition loose_strategy : string → option FilterStrategy :=
  loosely_match_enum [ALL; ANY] FilterStrategy_name.

(** An [int] field given an [int]. *)
Definition int_only (v : pyval) : option Z :=
  match v with
  | PInt z => Some z
  | _ => None
  end.

(** ** Printing a TargetInfo *)

(** [TargetInfo.__str__]: [f'TI[{self.cui}:{self.val}]']. *)
Definition TargetInfo_str (ti : TargetInfo) : string :=
  "TI[" +:+ cui ti +:+ ":" +:+ val ti +:+ "]".

(** [TargetInfo.__repr__]: [f'<{self}>']. *)
Definition TargetInfo_repr (ti : TargetInfo) : string :=
  "<" +:+ TargetInfo_str ti +:+ ">".

(** The character occurs in the string. *)
Fixpoint mentions (a : ascii) (s : string) : bool :=
  match s with
  | EmptyString => false
  | String b s' => Ascii.eqb a b || mentions a s'
  end.

(** ** A layer from a concept database *)

(** The attributes of a [CDB] that [from_CDB] reads.  Of [addl_info] only
    the entry under ['pt2ch'] is looked at. *)
Record CDB : Type := mkCDB {
  cdb_cui2names : gmap string (gset string);
  cdb_name2cuis : gmap string (gset string);
  cdb_cui2type_ids : gmap string (gset string);
  addl_info : gmap string (gmap string (gset string))
}.

Definition no_pt2ch_warning : string :=
  "No parent to child information presented so they cannot be used".

(** What a call of [from_CDB] leaves behind: the layer, the database (the
    layer keeps the very dict stored under ['pt2ch'], so the entries the
    constructor adds show in the database), and what was logged. *)
Record from_CDB_result : Type := mkFromCDB {
  layer : TranslationLayer;
  cdb_after : CDB;
  logged : list string
}.

(** [TranslationLayer.from_CDB]. *)
Definition from_CDB (cdb : CDB) : from_CDB_result :=
  match addl_info cdb !! "pt2ch" with
  | None =>
      mkFromCDB
        (TranslationLayer_init (cdb_cui2names cdb) (cdb_name2cuis cdb)
           (cdb_cui2type_ids cdb) ∅)
        cdb [no_pt2ch_warning]
  | Some parent2child =>
      let t := TranslationLayer_init (cdb_cui2names cdb) (cdb_name2cuis cdb)
                 (cdb_cui2type_ids cdb) parent2child in
      mkFromCDB t
        (mkCDB (cdb_cui2names cdb) (cdb_name2cuis cdb) (cdb_cui2type_ids cdb)
           (<["pt2ch" := cui2children t]> (addl_info cdb)))
        []
  end.

(** ** Several filters in one dict *)

(** [TypedFilter.list_to_dicts]. *)
Definition list_to_dicts (filters : list Filter) : list (list (string * pyval)) :=
  map to_dict filters.

(** [d[k] = v] on a dict in insertion order: the value of an existing key
    is replaced where it stands, a new key goes to the end. *)
Fixpoint dict_set {A} (k : string) (v : A) (d : list (string * A))
  : list (string * A) :=
  match d with
  | [] => [(k, v)]
  | (k', v') :: d' =>
      if String.eqb k k' then (k', v) :: d' else (k', v') :: dict_set k v d'
  end.

(** [d.update(other)]. *)
Definition dict_update {A} (d other : list (string * A)) : list (string * A) :=
  foldl (fun acc '(k, v) => dict_set k v acc) d other.

(** [TypedFilter.list_to_dict]. *)
Definition list_to_dict (filters : list Filter) : list (string * pyval) :=
  foldl dict_update [] (list_to_dicts filters).

(** [k in d] and [d.get(k)] on such a dict. *)
Definition dict_keys {A} (d : list (string * A)) : list string := d.*1.

Fixpoint dict_get {A} (k : string) (d : list (string * A)) : option A :=
  match d with
  | [] => None
  | (k', v) :: d' => if String.eqb k k' then Some v else dict_get k d'
  end.

(** The targets of one entry of the names table. *)
Definition entry_targets (e : string * gset string) : list TargetInfo :=
  map (mkTargetInfo e.1) (elements e.2).

(** ** The hierarchy as a relation *)

(** [x] is listed in the children set of [c]. *)
Definition child_of (t : TranslationLayer) (c x : string) : Prop :=
  ∃ children, cui2children t !! c = Some children ∧ x ∈ children.

(** [within t n c x]: [x] is reached from [c] in at least one and at most
    [n] steps of [child_of]. *)
Inductive within (t : TranslationLayer) : nat → string → string → Prop :=
  | within_child n c x :
      child_of t c x → within t (S n) c x
  | within_step n c m x :
      child_of t c m → within t n m x → within t (S n) c x.

(** The number of levels a call with [depth] looks at: one at least. *)
Definition hops (depth : Z) : nat := Z.to_nat (Z.max 1 depth).

(** Every concept-id listed as a child has names and a children set of
    its own: what the expansion needs never to fail. *)
Definition closed (t : TranslationLayer) : Prop :=
  ∀ c x, child_of t c x →
    is_Some (cui2names t !! x) ∧ is_Some (cui2children t !! x).

(** ** Example tables *)

Definition ex_children : gmap string (gset string) :=
  {[ "root" := {[ "mid" ]}; "mid" := {[ "leaf" ]} ]}.

(** root → mid → leaf. *)
Definition three_levels : TranslationLayer :=
  mkTranslationLayer ∅ ∅ ∅ ex_children.

(** names {A: a, B: b, C: c}, children {A: {B, C}}, over any other two
    tables. *)
Definition abc_layer (n2c types : gmap string (gset string)) : TranslationLayer :=
  TranslationLayer_init
    {[ "A" := {[ "a" ]}; "B" := {[ "b" ]}; "C" := {[ "c" ]} ]} n2c types
    {[ "A" := {[ "B"; "C" ]} ]}.

(** The same with type categories {A: {x, y}, B: {x}}. *)
Definition abc : TranslationLayer :=
  abc_layer ∅ {[ "A" := {[ "x"; "y" ]}; "B" := {[ "x" ]} ]}.

(** ** Counting type categories *)

(** The type categories of a concept: none when it has no entry. *)
Definition categories_of (t : TranslationLayer) (c : string) : gset string :=
  default ∅ (cui2type_ids t !! c).

(** How many categories of [c] are among [values]. *)
Definition matching_categories (t : TranslationLayer) (values : list string)
    (c : string) : nat :=
  size (filter (λ tid, tid ∈ values) (categories_of t c)).

(** How many times a simple filter yields a target of its input. *)
Definition multiplicity (type : FilterType) (values : list string)
    (t : TranslationLayer) (ti : TargetInfo) : nat :=
  match type with
  | CUI | CUI_AND_CHILDREN => if py_in (cui ti) values then 1 else 0
  | NAME => if py_in (val ti) values then 1 else 0
  | TYPE_ID => matching_categories t values (cui ti)
  end%nat.

(** The concept-id of a target is in the names table. *)
Definition named (t : TranslationLayer) (ti : TargetInfo) : Prop :=
  is_Some (cui2names t !! cui ti).

(** The simple filter at the bottom of a chain of delegates. *)
Fixpoint base_filter (f : Filter) : Filter :=
  match f with
  | TypedFilter _ _ => f
  | CUIWithChildFilter _ delegate _ _ => base_filter delegate
  end.

(** ** What the expansion is expected to yield *)

(** The targets of one concept, and its children set (empty when it has
    no entry). *)
Definition targets_of (t : TranslationLayer) (c : string) : list TargetInfo :=
  Gen.yields (targets_for t c).

Definition children_of (t : TranslationLayer) (c : string) : gset string :=
  default ∅ (cui2children t !! c).

(** The filter [{CUI_AND_CHILDREN: {depth: 1, cui: [A]}}]. *)
Definition A_and_children : Filter :=
  CUIWithChildFilter CUI_AND_CHILDREN (TypedFilter CUI_AND_CHILDREN ["A"]) 1 [].

(** names {root: r, mid: m, leaf: l}, children root → mid → leaf. *)
Definition family : TranslationLayer :=
  TranslationLayer_init
    {[ "root" := {[ "r" ]}; "mid" := {[ "m" ]}; "leaf" := {[ "l" ]} ]} ∅ ∅
    ex_children.

(** A children set that names a concept the names table does not have. *)
Definition dangling : TranslationLayer :=
  TranslationLayer_init
    {[ "A" := {[ "a" ]}; "B" := {[ "b" ]} ]} ∅ ∅
    {[ "A" := {[ "B"; "ghost" ]} ]}.

(** The value [to_dict] stores under the name of the kind. *)
Definition filter_payload (f : Filter) : pyval :=
  match f with
  | TypedFilter _ values => PList values
  | CUIWithChildFilter _ delegate depth _ =>
      PDict [("depth", PInt depth); ("cui", PList (filter_values delegate))]
  end.

(** A hierarchical filter as [one_from_input] builds it: of kind
    CUI_AND_CHILDREN, with the default (empty) values of the class. *)
Definition well_formed (f : Filter) : Prop :=
  match f with
  | TypedFilter _ _ => True
  | CUIWithChildFilter k _ _ vs => k = CUI_AND_CHILDREN ∧ vs = []
  end.

(** A database without, and one with, parent to child information. *)
Definition cdb_flat : CDB :=
  mkCDB {[ "A" := {[ "a" ]}; "B" := {[ "b" ]} ]} ∅ ∅ ∅.

Definition cdb_tree : CDB :=
  mkCDB {[ "A" := {[ "a" ]}; "B" := {[ "b" ]} ]} ∅ ∅
        {[ "pt2ch" := {[ "A" := {[ "B" ]} ]} ]}.

(** ** Round trips *)

(** What a filter read back from its serialized form shares with the
    filter that was serialized: kind, values, depth, and the values of the
    delegate. *)
Definition equivalent (f f' : Filter) : Prop :=
  filter_type f' = filter_type f ∧
  filter_values f' = filter_values f ∧
  filter_depth f' = filter_depth f ∧
  filter_values <$> filter_delegate f' = filter_values <$> filter_delegate f.

(** What a hierarchical filter of depth 1 makes of a target its delegate
    accepts: the target, then the targets of the children of its concept. *)
Definition expand_1 (t : TranslationLayer) (ti : TargetInfo) : list TargetInfo :=
  ti :: flat_map (targets_of t) (elements (children_of t (cui ti))).

(** The same at depth 2: after the targets of each child, those of the
    children of that child. *)
Definition expand_2 (t : TranslationLayer) (ti : TargetInfo) : list TargetInfo :=
  ti :: flat_map (fun child =>
          targets_of t child ++
          flat_map (targets_of t) (elements (children_of t child)))
        (elements (children_of t (cui ti))).

(** The tables have what the expansion of [c] looks up at depth 1: a
    children set for [c], and names for each child. *)
Definition expandable_1 (t : TranslationLayer) (c : string) : Prop :=
  is_Some (cui2children t !! c) ∧
  ∀ x, x ∈ children_of t c → is_Some (cui2names t !! x).

(** And at depth 2: also a children set for each child, and names for
    each grandchild. *)
Definition expandable_2 (t : TranslationLayer) (c : string) : Prop :=
  is_Some (cui2children t !! c) ∧
  ∀ x, x ∈ children_of t c →
    is_Some (cui2names t !! x) ∧ is_Some (cui2children t !! x) ∧
    ∀ y, y ∈ children_of t x → is_Some (cui2names t !! y).

(** The filter [{CUI_AND_CHILDREN: {depth: d, cui: [root]}}]. *)
Definition root_and_children (d : Z) : Filter :=
  CUIWithChildFilter CUI_AND_CHILDREN (TypedFilter CUI_AND_CHILDREN ["root"]) d [].

(** * Properties *)

(** ** Generators *)

Module GenFacts.
Import Gen.

Lemma seq_done_r {A} (g : t A) : seq g done = g.
Proof.
  destruct g as [ys [e|]]; unfold seq; simpl; [done|].
  by rewrite app_nil_r.
Qed.

Lemma seq_outcome_None {A} (g1 g2 : t A) :
  outcome (seq g1 g2) = None ↔ outcome g1 = None ∧ outcome g2 = None.
Proof.
  unfold seq. destruct (outcome g1) eqn:E; simpl.
  - rewrite E. split; [done | intros [? _]; done].
  - tauto.
Qed.

Lemma seq_ok {A} (g1 g2 : t A) :
  outcome g1 = None →
  seq g1 g2 = Mk (yields g1 ++ yields g2) (outcome g2).
Proof. intros H. unfold seq. by rewrite H. Qed.

Lemma seq_outcome_Some {A} (g1 g2 : t A) e :
  outcome (seq g1 g2) = Some e →
  outcome g1 = Some e ∨ (outcome g1 = None ∧ outcome g2 = Some e).
Proof.
  unfold seq. destruct (outcome g1) eqn:E; simpl.
  - rewrite E. by left.
  - by right.
Qed.

Lemma for_list_outcome_None {A B} (l : list A) (body : A → t B) :
  outcome (for_list l body) = None ↔ ∀ x, x ∈ l → outcome (body x) = None.
Proof.
  induction l as [|x l IH]; simpl.
  - split; [intros _ x Hx; by apply elem_of_nil in Hx | done].
  - rewrite seq_outcome_None, IH. split.
    + intros [Hx Hl] y Hy. apply elem_of_cons in Hy as [->|Hy]; auto.
    + intros H. split; [apply H; left | intros y Hy; apply H; by right].
Qed.

(** A loop whose bodies all finish yields what they yield, in turn. *)
Lemma for_list_ok {A B} (l : list A) (body : A → t B) :
  (∀ x, x ∈ l → outcome (body x) = None) →
  for_list l body = Mk (flat_map (fun x => yields (body x)) l) None.
Proof.
  induction l as [|x l IH]; intros H; simpl; [done|].
  rewrite seq_ok by (apply H; left).
  rewrite IH by (intros y Hy; apply H; by right). done.
Qed.

Lemma for_list_yield {A B} (l : list A) (f : A → B) :
  for_list l (fun x => yield (f x)) = Mk (map f l) None.
Proof.
  rewrite for_list_ok by done. f_equal.
Qed.

(** A loop stops with the error of a body, if it stops with one. *)
Lemma for_list_outcome_Some {A B} (l : list A) (body : A → t B) e :
  outcome (for_list l body) = Some e →
  ∃ x, x ∈ l ∧ outcome (body x) = Some e.
Proof.
  induction l as [|x l IH]; simpl; [done|].
  unfold seq. destruct (outcome (body x)) eqn:E; simpl.
  - rewrite E. intros [= ->]. exists x. split; [left | done].
  - intros H. destruct (IH H) as (y & Hy & Hb). exists y. split; [by right | done].
Qed.

End GenFacts.

(** ** has_child_of and has_parent_of *)

Lemma py_in_true x xs : py_in x xs = true ↔ x ∈ xs.
Proof. unfold py_in. apply bool_decide_eq_true. Qed.

Lemma existsb_elements (P : string → bool) (X : gset string) :
  existsb P (elements X) = true ↔ ∃ x, x ∈ X ∧ P x = true.
Proof.
  rewrite existsb_exists. split; intros (x & Hx & HP); exists x; split; try done.
  - by apply elem_of_elements, list_elem_of_In.
  - by apply list_elem_of_In, elem_of_elements.
Qed.

(** The body of the source, read as an equation: the call at [depth - 1]
    is again a call of [has_child_of]. *)
Lemma has_child_of_unfold t found_cuis c depth :
  has_child_of t found_cuis c depth =
  match cui2children t !! c with
  | None => false
  | Some children =>
      if existsb (fun child => py_in child found_cuis) (elements children)
      then true
      else if 1 <? depth
           then existsb (fun child => has_child_of t found_cuis child (depth - 1))
                        (elements children)
           else false
  end.
Proof.
  unfold has_child_of.
  destruct (Z.ltb_spec 1 depth) as [Hd|Hd].
  - replace (Z.to_nat depth) with (S (Z.to_nat (depth - 1))) by lia.
    simpl. destruct (cui2children t !! c); [|done].
    destruct (existsb _ _); [done|].
    destruct (Z.ltb_spec 1 depth); [done | lia].
  - destruct (Z.to_nat depth); simpl; destruct (cui2children t !! c); try done;
      destruct (existsb _ _); try done;
      destruct (Z.ltb_spec 1 depth); try done; lia.
Qed.

Lemma has_child_of_no_entry t found_cuis c depth :
  cui2children t !! c = None → has_child_of t found_cuis c depth = false.
Proof. intros H. rewrite has_child_of_unfold. by rewrite H. Qed.

Lemma within_1 t c x : within t 1 c x ↔ child_of t c x.
Proof.
  split.
  - inversion 1; subst; [done|]. match goal with H : within _ 0%nat _ _ |- _ => inversion H end.
  - by constructor.
Qed.

Lemma within_S t n c x :
  within t (S n) c x ↔ child_of t c x ∨ ∃ m, child_of t c m ∧ within t n m x.
Proof.
  split.
  - inversion 1; subst; [by left | right; eauto].
  - intros [H | (m & Hm & H)]; [by constructor | by econstructor].
Qed.

(** [has_child_of] finds exactly the descendants within [hops depth]. *)
Lemma has_child_of_within t found_cuis c depth :
  has_child_of t found_cuis c depth = true ↔
  ∃ x, x ∈ found_cuis ∧ within t (hops depth) c x.
Proof.
  unfold hops.
  remember (Z.to_nat (Z.max 1 depth)) as n eqn:Hn.
  revert c depth Hn. induction n as [|n IH]; intros c depth Hn; [lia|].
  rewrite has_child_of_unfold.
  setoid_rewrite within_S.
  destruct (cui2children t !! c) as [children|] eqn:Hc.
  2:{ split; [done|]. intros (x & _ & [(ch & ? & _) | (m & (ch & ? & _) & _)]); congruence. }
  destruct (existsb _ _) eqn:Hdirect.
  { split; [intros _ | done].
    apply existsb_elements in Hdirect as (x & Hx & Hin).
    apply py_in_true in Hin. exists x. split; [done|]. left. by exists children. }
  assert (Hnone : ∀ x, x ∈ found_cuis → ¬ child_of t c x).
  { intros x Hx (ch & Hch & Hin). rewrite Hc in Hch. injection Hch as <-.
    assert (existsb (fun child => py_in child found_cuis) (elements children) = true)
      as Habs; [|congruence].
    apply existsb_elements. exists x. split; [done | by apply py_in_true]. }
  destruct (Z.ltb_spec 1 depth) as [Hd|Hd].
  - rewrite existsb_elements. split.
    + intros (m & Hm & Hrec).
      apply (IH m (depth - 1)) in Hrec as (x & Hx & Hw); [|lia].
      exists x. split; [done|]. right. exists m. split; [by exists children | done].
    + intros (x & Hx & [Hch | (m & (ch & Hch & Hm) & Hw)]); [by destruct (Hnone x Hx)|].
      rewrite Hc in Hch. injection Hch as <-.
      exists m. split; [done|]. apply (IH m (depth - 1)); [lia|]. eauto.
  - assert (n = 0%nat) as -> by lia. split; [done|].
    intros (x & Hx & [Hch | (m & _ & Hw)]); [by destruct (Hnone x Hx) | inversion Hw].
Qed.

Lemma has_parent_of_within t found_cuis c depth :
  has_parent_of t found_cuis c depth = true ↔
  ∃ p, p ∈ found_cuis ∧ within t (hops depth) p c.
Proof.
  unfold has_parent_of. rewrite existsb_exists. split.
  - intros (p & Hp & H). apply has_child_of_within in H as (x & Hx & Hw).
    apply list_elem_of_singleton in Hx as ->. exists p. split; [by apply list_elem_of_In | done].
  - intros (p & Hp & Hw). exists p. split; [by apply list_elem_of_In|].
    apply has_child_of_within. exists c. split; [by apply list_elem_of_singleton | done].
Qed.

Lemma three_levels_root_mid : child_of three_levels "root" "mid".
Proof. exists {[ "mid" ]}. split; [by vm_compute | set_solver]. Qed.

Lemma three_levels_mid_leaf : child_of three_levels "mid" "leaf".
Proof. exists {[ "leaf" ]}. split; [by vm_compute | set_solver]. Qed.

(** C6: at depth 1 [has_child_of] answers whether a direct child of [c] is
    among [ids]; at depth 2 whether a child or a grandchild is; and on a
    concept without an entry in the children table it answers [false], at
    every depth. *)
Theorem has_child_of_depth_1_2 (t : TranslationLayer) (ids : list string) (c : string) :
  (has_child_of t ids c 1 = true ↔ ∃ x, x ∈ ids ∧ child_of t c x) ∧
  (has_child_of t ids c 2 = true ↔
     ∃ x, x ∈ ids ∧ (child_of t c x ∨ ∃ m, child_of t c m ∧ child_of t m x)) ∧
  (cui2children t !! c = None → ∀ depth, has_child_of t ids c depth = false).
Proof.
  split; [|split].
  - rewrite has_child_of_within. change (hops 1) with 1%nat.
    by setoid_rewrite within_1.
  - rewrite has_child_of_within. change (hops 2) with 2%nat.
    setoid_rewrite within_S. by setoid_rewrite within_1.
  - intros H depth. by apply has_child_of_no_entry.
Qed.

Lemma has_child_of_depth_1_2_witness :
  has_child_of three_levels ["leaf"] "root" 2 = true ∧
  has_child_of three_levels ["leaf"] "root" 1 = false ∧
  has_child_of three_levels ["mid"] "leaf" 7 = false.
Proof.
  pose proof (proj1 (proj2 (has_child_of_depth_1_2 three_levels ["leaf"] "root"))) as H2.
  pose proof (proj2 (proj2 (has_child_of_depth_1_2 three_levels ["mid"] "leaf"))) as H3.
  split; [|split].
  - apply H2. exists "leaf". split; [constructor|]. right. exists "mid".
    split; [apply three_levels_root_mid | apply three_levels_mid_leaf].
  - by vm_compute.
  - apply H3. by vm_compute.
Defined.

(** C1, as the code has it: in a hierarchy root → mid → leaf the candidate
    is the ancestor and the concept the descendant, so it is
    [has_parent_of({root}, leaf, depth=2)] that is true; and [has_parent_of]
    is true exactly when some candidate reaches the concept in at most
    [depth] steps down the children table. *)
Theorem has_parent_of_three_levels (t : TranslationLayer) (root mid leaf : string) :
  child_of t root mid → child_of t mid leaf →
  has_parent_of t [root] leaf 2 = true ∧
  ∀ candidates c depth,
    has_parent_of t candidates c depth = true ↔
    ∃ p, p ∈ candidates ∧ within t (hops depth) p c.
Proof.
  intros Hrm Hml. split.
  - apply has_parent_of_within. exists root. split; [set_solver|].
    change (hops 2) with 2%nat. eapply within_step; [done|]. by constructor.
  - intros. apply has_parent_of_within.
Qed.

Lemma has_parent_of_three_levels_witness :
  has_parent_of three_levels ["root"] "leaf" 2 = true.
Proof.
  exact (proj1 (has_parent_of_three_levels three_levels "root" "mid" "leaf"
                  three_levels_root_mid three_levels_mid_leaf)).
Defined.

(** C1 as stated fails: with the leaf as the candidate and the root as the
    concept the answer is [False] on root → mid → leaf. *)
Lemma has_parent_of_leaf_root_false :
  ¬ (∀ (t : TranslationLayer) (root mid leaf : string),
       child_of t root mid → child_of t mid leaf →
       has_parent_of t [leaf] root 2 = true).
Proof.
  intros H.
  specialize (H three_levels "root" "mid" "leaf"
                three_levels_root_mid three_levels_mid_leaf).
  vm_compute in H. discriminate.
Qed.

(** ** targets_for *)

Lemma targets_for_present t c names :
  cui2names t !! c = Some names →
  targets_for t c = Gen.Mk (map (mkTargetInfo c) (elements names)) None.
Proof. intros H. unfold targets_for. rewrite H. apply GenFacts.for_list_yield. Qed.

Lemma targets_for_absent t c :
  cui2names t !! c = None → targets_for t c = Gen.raise (KeyError c).
Proof. intros H. unfold targets_for. by rewrite H. Qed.

Lemma targets_for_outcome t c :
  Gen.outcome (targets_for t c) =
  match cui2names t !! c with
  | Some _ => None
  | None => Some (KeyError c)
  end.
Proof.
  destruct (cui2names t !! c) as [names|] eqn:H.
  - by rewrite (targets_for_present _ _ _ H).
  - by rewrite (targets_for_absent _ _ H).
Qed.

Global Instance mkTargetInfo_inj c : Inj (=) (=) (mkTargetInfo c).
Proof. intros x y [=]. done. Qed.

(** C8: for a concept-id in the names table [targets_for] finishes, having
    yielded one [TargetInfo] of that concept per registered name (each name
    once, nothing else); for a concept-id that is not in the table it
    yields nothing and raises the [KeyError] of the failed lookup. *)
Theorem targets_for_one_per_name (t : TranslationLayer) (c : string) :
  (∀ names, cui2names t !! c = Some names →
     Gen.outcome (targets_for t c) = None ∧
     NoDup (Gen.yields (targets_for t c)) ∧
     List.length (Gen.yields (targets_for t c)) = size names ∧
     ∀ ti, ti ∈ Gen.yields (targets_for t c) ↔ cui ti = c ∧ val ti ∈ names) ∧
  (cui2names t !! c = None →
     Gen.yields (targets_for t c) = [] ∧
     Gen.outcome (targets_for t c) = Some (KeyError c)).
Proof.
  split.
  - intros names H. rewrite (targets_for_present _ _ _ H). simpl.
    split; [done|]. split; [|split].
    + apply (NoDup_fmap_2 _), NoDup_elements.
    + by rewrite length_map.
    + intros [c' v]. simpl. rewrite list_elem_of_In, in_map_iff. split.
      * intros (name & [= <- <-] & Hin).
        split; [done|]. by apply elem_of_elements, list_elem_of_In.
      * intros [-> Hv]. exists v. split; [done|].
        by apply list_elem_of_In, elem_of_elements.
  - intros H. by rewrite (targets_for_absent _ _ H).
Qed.

Lemma targets_for_one_per_name_witness :
  Gen.yields (targets_for abc "B") = [mkTargetInfo "B" "b"] ∧
  Gen.outcome (targets_for abc "Z") = Some (KeyError "Z").
Proof.
  split.
  - by vm_compute.
  - apply (proj2 (targets_for_one_per_name abc "Z")). by vm_compute.
Defined.

(** ** Equality of TargetInfo instances *)

Lemma py_eq_true a b : Obj.py_eq a b = true ↔ a = b.
Proof. unfold Obj.py_eq. apply Nat.eqb_eq. Qed.

Lemma get_new_old h c v r x :
  Obj.get h r = Some x → Obj.get (Obj.new h c v).2 r = Some x.
Proof. unfold Obj.get, Obj.new. simpl. intros H. by apply lookup_app_l_Some. Qed.

Lemma get_new h c v :
  Obj.get (Obj.new h c v).2 (Obj.new h c v).1 = Some (mkTargetInfo c v).
Proof.
  unfold Obj.get, Obj.new. simpl. by apply list_lookup_middle.
Qed.

(** C3, as the code has it: [TargetInfo] defines no equality, so two
    instances are equal exactly when they are one object.  Equal instances
    have equal fields; two instances created one after the other are never
    equal, whatever their fields. *)
Theorem TargetInfo_eq_is_identity (h : Obj.store) :
  (∀ a b, Obj.py_eq a b = true ↔ a = b) ∧
  (∀ a b, is_Some (Obj.get h a) → Obj.py_eq a b = true →
          Obj.same_fields h a b = true) ∧
  (∀ c1 v1 c2 v2,
     let '(a, h1) := Obj.new h c1 v1 in
     let '(b, h2) := Obj.new h1 c2 v2 in
     Obj.get h2 a = Some (mkTargetInfo c1 v1) ∧
     Obj.get h2 b = Some (mkTargetInfo c2 v2) ∧
     Obj.py_eq a b = false).
Proof.
  split; [|split].
  - apply py_eq_true.
  - intros a b [x Hx] ->%py_eq_true. unfold Obj.same_fields. rewrite Hx.
    by rewrite !bool_decide_eq_true_2.
  - intros c1 v1 c2 v2.
    destruct (Obj.new h c1 v1) as [a h1] eqn:E1.
    destruct (Obj.new h1 c2 v2) as [b h2] eqn:E2.
    pose proof (get_new h c1 v1) as G1. rewrite E1 in G1. simpl in G1.
    pose proof (get_new h1 c2 v2) as G2. rewrite E2 in G2. simpl in G2.
    pose proof (get_new_old h1 c2 v2 a _ G1) as G1'. rewrite E2 in G1'. simpl in G1'.
    split; [done|]. split; [done|].
    unfold Obj.new in E1, E2. injection E1 as <- <-. injection E2 as <- <-.
    unfold Obj.py_eq. apply Nat.eqb_neq. rewrite length_app. simpl. lia.
Qed.

Lemma TargetInfo_eq_is_identity_witness :
  Obj.same_fields [mkTargetInfo "C1" "n"] 0%nat 0%nat = true.
Proof.
  apply (proj1 (proj2 (TargetInfo_eq_is_identity [mkTargetInfo "C1" "n"])) 0%nat 0%nat).
  - by eexists.
  - reflexivity.
Defined.

(** C3 as stated fails: [TargetInfo("C1", "n") == TargetInfo("C1", "n")] is
    [False] although both fields are equal. *)
Lemma TargetInfo_equal_fields_not_equal :
  ¬ (∀ (h : Obj.store) (a b : Obj.ref),
       is_Some (Obj.get h a) → is_Some (Obj.get h b) →
       (Obj.py_eq a b = true ↔ Obj.same_fields h a b = true)).
Proof.
  intros H.
  pose (h1 := (Obj.new [] "C1" "n").2).
  pose (h2 := (Obj.new h1 "C1" "n").2).
  destruct (H h2 0%nat 1%nat) as [_ Hback]; [by eexists | by eexists |].
  specialize (Hback eq_refl). discriminate.
Qed.

(** ** The TYPE_ID filter *)

Lemma for_list_cond_yield {A B} (p : A → bool) (l : list A) (y : B) :
  Gen.for_list l (fun x => if p x then Gen.yield y else Gen.done) =
  Gen.Mk (repeat y (List.length (List.filter p l))) None.
Proof.
  rewrite GenFacts.for_list_ok by (intros x _; by destruct (p x)). f_equal.
  induction l as [|x l IH]; simpl; [done|].
  rewrite IH. by destruct (p x).
Qed.

Lemma length_filter_elements (values : list string) (X : gset string) :
  List.length (List.filter (fun tid => py_in tid values) (elements X)) =
  size (filter (λ tid, tid ∈ values) X).
Proof.
  unfold size, set_size. simpl. apply Permutation_length, NoDup_Permutation.
  - apply NoDup_ListNoDup, List.NoDup_filter, NoDup_ListNoDup, NoDup_elements.
  - apply NoDup_elements.
  - intros x. rewrite elem_of_elements, elem_of_filter, list_elem_of_In, filter_In.
    rewrite py_in_true, <- list_elem_of_In, elem_of_elements. tauto.
Qed.

Lemma TYPE_ID_targets t values in_gen :
  get_applicable_targets (TypedFilter TYPE_ID values) t in_gen =
  Gen.Mk (flat_map (fun ti => repeat ti (matching_categories t values (cui ti)))
                   (Gen.yields in_gen))
         (Gen.outcome in_gen).
Proof.
  simpl. unfold Gen.for_gen.
  rewrite GenFacts.for_list_ok.
  2:{ intros ti _. by rewrite for_list_cond_yield. }
  unfold Gen.seq. simpl. rewrite app_nil_r. f_equal.
  apply flat_map_ext. intros ti.
  rewrite for_list_cond_yield. simpl.
  unfold matching_categories, categories_of.
  rewrite length_filter_elements.
  by destruct (cui2type_ids t !! cui ti).
Qed.

(** C7: the TYPE_ID filter yields every [TargetInfo] of the input as many
    times as its concept has type categories among the values of the
    filter, and stops as the input stops.  So a concept with two such
    categories is yielded twice, and a concept without an entry in the
    type table counts as having no category: it is left out, without an
    error. *)
Theorem TYPE_ID_once_per_category (t : TranslationLayer) (values : list string)
    (in_gen : Gen.t TargetInfo) :
  get_applicable_targets (TypedFilter TYPE_ID values) t in_gen =
    Gen.Mk (flat_map (fun ti => repeat ti (matching_categories t values (cui ti)))
                     (Gen.yields in_gen))
           (Gen.outcome in_gen) ∧
  (∀ ti, matching_categories t values (cui ti) = 2%nat →
     get_applicable_targets (TypedFilter TYPE_ID values) t (Gen.yield ti) =
     Gen.Mk [ti; ti] None) ∧
  (∀ ti, cui2type_ids t !! cui ti = None →
     categories_of t (cui ti) = ∅ ∧
     get_applicable_targets (TypedFilter TYPE_ID values) t (Gen.yield ti) = Gen.done).
Proof.
  split; [apply TYPE_ID_targets|]. split.
  - intros ti H. rewrite TYPE_ID_targets. simpl. by rewrite H.
  - intros ti H. rewrite TYPE_ID_targets. simpl.
    unfold matching_categories, categories_of. rewrite H. simpl.
    split; [done|].
    assert (filter (λ tid : string, tid ∈ values) (∅ : gset string) = ∅) as ->
      by set_solver.
    by rewrite size_empty.
Qed.

Lemma TYPE_ID_once_per_category_witness :
  get_applicable_targets (TypedFilter TYPE_ID ["y"; "x"; "z"]) abc
    (Gen.yield (mkTargetInfo "A" "a")) =
  Gen.Mk [mkTargetInfo "A" "a"; mkTargetInfo "A" "a"] None ∧
  get_applicable_targets (TypedFilter TYPE_ID ["y"; "x"; "z"]) abc
    (Gen.yield (mkTargetInfo "C" "c")) = Gen.done.
Proof.
  split.
  - apply (proj1 (proj2 (TYPE_ID_once_per_category abc ["y"; "x"; "z"] Gen.done))).
    by vm_compute.
  - apply (proj2 (proj2 (TYPE_ID_once_per_category abc ["y"; "x"; "z"] Gen.done))).
    by vm_compute.
Defined.

(** ** Hierarchical expansion *)

Lemma for_list_ext {A B} (l : list A) (f g : A → Gen.t B) :
  (∀ x, x ∈ l → f x = g x) → Gen.for_list l f = Gen.for_list l g.
Proof.
  induction l as [|x l IH]; intros H; simpl; [done|].
  rewrite (H x) by left. rewrite IH; [done|]. intros y Hy. apply H. by right.
Qed.

(** The body of the source, read as an equation: the call at
    [cur_depth + 1] is again a call of [get_children_of]. *)
Lemma get_children_of_unfold self_depth t c cur_depth :
  get_children_of self_depth t c cur_depth =
  match cui2children t !! c with
  | None => Gen.raise (KeyError c)
  | Some children =>
      Gen.for_list (elements children) (fun child =>
        Gen.seq (targets_for t child)
          (if cur_depth <? self_depth
           then get_children_of self_depth t child (cur_depth + 1)
           else Gen.done))
  end.
Proof.
  unfold get_children_of.
  destruct (Z.ltb_spec cur_depth self_depth) as [Hd|Hd].
  - replace (Z.to_nat (self_depth - cur_depth))
      with (S (Z.to_nat (self_depth - (cur_depth + 1)))) by lia.
    simpl. destruct (cui2children t !! c); [|done].
    apply for_list_ext. intros child _.
    by destruct (Z.ltb_spec cur_depth self_depth); [|lia].
  - destruct (Z.to_nat (self_depth - cur_depth)); simpl;
      (destruct (cui2children t !! c); [|done]);
      apply for_list_ext; intros child _;
      by destruct (Z.ltb_spec cur_depth self_depth); [lia|].
Qed.

Lemma get_children_of_last self_depth t c cur_depth children :
  self_depth ≤ cur_depth →
  cui2children t !! c = Some children →
  get_children_of self_depth t c cur_depth =
  Gen.for_list (elements children) (targets_for t).
Proof.
  intros Hd Hc. rewrite get_children_of_unfold, Hc.
  apply for_list_ext. intros child _.
  destruct (Z.ltb_spec cur_depth self_depth); [lia|].
  apply GenFacts.seq_done_r.
Qed.

Lemma for_list_targets_for t (l : list string) :
  (∀ x, x ∈ l → is_Some (cui2names t !! x)) →
  Gen.for_list l (targets_for t) = Gen.Mk (flat_map (targets_of t) l) None.
Proof.
  intros H. apply GenFacts.for_list_ok. intros x Hx.
  rewrite targets_for_outcome. by destruct (H x Hx) as [names ->].
Qed.

Lemma get_children_of_depth_1 t c children :
  cui2children t !! c = Some children →
  (∀ x, x ∈ children → is_Some (cui2names t !! x)) →
  get_children_of 1 t c 1 =
  Gen.Mk (flat_map (targets_of t) (elements children)) None.
Proof.
  intros Hc Hn. rewrite (get_children_of_last 1 t c 1 children) by (done || lia).
  apply for_list_targets_for. intros x Hx. by apply Hn, elem_of_elements.
Qed.

Lemma get_children_of_depth_2 t c children :
  cui2children t !! c = Some children →
  (∀ x, x ∈ children →
     is_Some (cui2names t !! x) ∧ is_Some (cui2children t !! x) ∧
     ∀ y, y ∈ children_of t x → is_Some (cui2names t !! y)) →
  get_children_of 2 t c 1 =
  Gen.Mk (flat_map (fun child =>
            targets_of t child ++
            flat_map (targets_of t) (elements (children_of t child)))
          (elements children)) None.
Proof.
  intros Hc Hn. rewrite get_children_of_unfold, Hc.
  assert (Hbody : ∀ child, child ∈ elements children →
    Gen.seq (targets_for t child)
      (if 1 <? 2 then get_children_of 2 t child (1 + 1) else Gen.done) =
    Gen.Mk (targets_of t child ++
            flat_map (targets_of t) (elements (children_of t child))) None).
  { intros child Hin. apply elem_of_elements in Hin.
    destruct (Hn child Hin) as ([names Hnames] & [gch Hgch] & Hgn).
    change (1 <? 2) with true. cbv iota.
    rewrite (get_children_of_last 2 t child (1 + 1) gch) by (done || lia).
    unfold children_of in *. rewrite Hgch in *. simpl in *.
    rewrite for_list_targets_for by (intros y Hy; by apply Hgn, elem_of_elements).
    rewrite GenFacts.seq_ok by (rewrite targets_for_outcome; by rewrite Hnames).
    done. }
  rewrite (for_list_ext _ _ _ Hbody).
  by rewrite GenFacts.for_list_ok.
Qed.

(** ** Descendants without entries *)

Lemma foldl_default_children (keys : list string)
    (children : gmap string (gset string)) (c : string) :
  foldl default_children children keys !! c =
  match children !! c with
  | Some ch => Some ch
  | None => if bool_decide (c ∈ keys) then Some ∅ else None
  end.
Proof.
  revert children. induction keys as [|k keys IH]; intros children; simpl.
  - by destruct (children !! c).
  - rewrite IH. unfold default_children.
    destruct (children !! k) as [chk|] eqn:Hk.
    + destruct (children !! c) eqn:Hc; [done|].
      assert (c ≠ k) by congruence.
      destruct (bool_decide_reflect (c ∈ keys)) as [Hin|Hin].
      * rewrite bool_decide_eq_true_2; [done | by right].
      * rewrite bool_decide_eq_false_2; [done|].
        intros [?|?]%elem_of_cons; done.
    + destruct (decide (c = k)) as [->|Hne].
      * rewrite lookup_insert_eq, Hk.
        rewrite bool_decide_eq_true_2; [done | left].
      * rewrite lookup_insert_ne by done.
        destruct (children !! c) eqn:Hc; [done|].
        destruct (bool_decide_reflect (c ∈ keys)) as [Hin|Hin].
        -- rewrite bool_decide_eq_true_2; [done | by right].
        -- rewrite bool_decide_eq_false_2; [done|].
           intros [?|?]%elem_of_cons; done.
Qed.

Lemma elem_of_keys (names : gmap string (gset string)) (c : string) :
  c ∈ (map_to_list names).*1 ↔ is_Some (names !! c).
Proof.
  rewrite list_elem_of_fmap. split.
  - intros ([k v] & -> & Hin). apply elem_of_map_to_list in Hin. by eexists.
  - intros [v Hv]. exists (c, v). split; [done | by apply elem_of_map_to_list].
Qed.

(** What the constructor leaves in the children table. *)
Lemma init_children names n2c types children c :
  cui2children (TranslationLayer_init names n2c types children) !! c =
  match children !! c with
  | Some ch => Some ch
  | None =>
      match names !! c with
      | Some _ => Some ∅
      | None => None
      end
  end.
Proof.
  simpl. rewrite foldl_default_children.
  destruct (children !! c); [done|].
  destruct (names !! c) eqn:Hn.
  - rewrite bool_decide_eq_true_2; [done|]. apply elem_of_keys. by rewrite Hn.
  - rewrite bool_decide_eq_false_2; [done|].
    rewrite elem_of_keys, Hn. by intros [? ?].
Qed.

(** The invariant the constructor establishes. *)
Lemma init_named_has_children names n2c types children c :
  is_Some (names !! c) →
  is_Some (cui2children (TranslationLayer_init names n2c types children) !! c).
Proof.
  intros [v Hv]. rewrite init_children, Hv. by destruct (children !! c).
Qed.

(** [get_children_of] raises lookup errors only. *)
Lemma get_children_of_raises_KeyError self_depth t c cur_depth e :
  Gen.outcome (get_children_of self_depth t c cur_depth) = Some e →
  ∃ k, e = KeyError k.
Proof.
  remember (Z.to_nat (self_depth - cur_depth)) as n eqn:Hn.
  revert c cur_depth Hn. induction n as [|n IH]; intros c cur_depth Hn;
    rewrite get_children_of_unfold;
    (destruct (cui2children t !! c) as [children|]; [|intros [= <-]; eauto]);
    intros (child & _ & H)%GenFacts.for_list_outcome_Some;
    apply GenFacts.seq_outcome_Some in H as [H | [_ H]];
    try (rewrite targets_for_outcome in H;
         destruct (cui2names t !! child); [done | injection H as <-; eauto]).
  - by destruct (Z.ltb_spec cur_depth self_depth); [lia|].
  - destruct (Z.ltb_spec cur_depth self_depth); [|done].
    apply (IH child (cur_depth + 1)); [lia | done].
Qed.

(** An expansion that finishes found a name entry for every descendant
    it looked at. *)
Lemma get_children_of_finished self_depth t n :
  ∀ c d, within t n c d →
  ∀ cur_depth, hops (self_depth - cur_depth + 1) = n →
  Gen.outcome (get_children_of self_depth t c cur_depth) = None →
  is_Some (cui2names t !! d).
Proof.
  induction 1 as [n c x (children & Hc & Hx) | n c m x (children & Hc & Hm) Hw IH];
    intros cur_depth Hn; rewrite get_children_of_unfold, Hc;
    rewrite GenFacts.for_list_outcome_None; intros Hall.
  - specialize (Hall x (proj2 (elem_of_elements _ _) Hx)).
    apply GenFacts.seq_outcome_None in Hall as [Hall _].
    rewrite targets_for_outcome in Hall. by destruct (cui2names t !! x).
  - specialize (Hall m (proj2 (elem_of_elements _ _) Hm)).
    apply GenFacts.seq_outcome_None in Hall as [_ Hall].
    unfold hops in Hn.
    destruct (Z.ltb_spec cur_depth self_depth).
    + apply (IH (cur_depth + 1)); [unfold hops; lia | done].
    + assert (n = 0%nat) as -> by lia. inversion Hw.
Qed.

(** C10: in a layer built by the constructor, a concept-id without names
    keeps the children entry it was given, or none: the defaulting does not
    reach it.  And when a descendant the expansion looks at has no entry in
    the names table, or none in the children table, [get_children_of] does
    not finish: it stops with a [KeyError]. *)
Theorem get_children_of_unprotected
    (names n2c types children : gmap string (gset string)) :
  let t := TranslationLayer_init names n2c types children in
  (∀ c, names !! c = None → cui2children t !! c = children !! c) ∧
  (∀ self_depth c cur_depth d,
     within t (hops (self_depth - cur_depth + 1)) c d →
     cui2names t !! d = None ∨ cui2children t !! d = None →
     ∃ k, Gen.outcome (get_children_of self_depth t c cur_depth) = Some (KeyError k)).
Proof.
  intros t. split.
  - intros c Hc. unfold t. rewrite init_children, Hc. by destruct (children !! c).
  - intros self_depth c cur_depth d Hw Hmissing.
    assert (cui2names t !! d = None) as Hd.
    { destruct Hmissing as [H|H]; [done|].
      destruct (cui2names t !! d) eqn:Hn; [|done].
      destruct (init_named_has_children names n2c types children d) as [ch Hch];
        [by eexists|]. fold t in Hch. congruence. }
    destruct (Gen.outcome (get_children_of self_depth t c cur_depth)) as [e|] eqn:Ho.
    + destruct (get_children_of_raises_KeyError _ _ _ _ _ Ho) as [k ->]. eauto.
    + destruct (get_children_of_finished self_depth t _ c d Hw cur_depth eq_refl Ho)
        as [v Hv]. congruence.
Qed.

Lemma get_children_of_unprotected_witness :
  ∃ k, Gen.outcome (get_children_of 1 dangling "A" 1) = Some (KeyError k).
Proof.
  apply (proj2 (get_children_of_unprotected
                  {[ "A" := {[ "a" ]}; "B" := {[ "b" ]} ]} ∅ ∅
                  {[ "A" := {[ "B"; "ghost" ]} ]}) 1 "A" 1 "ghost").
  - apply within_child. exists {[ "B"; "ghost" ]}. split; [by vm_compute | set_solver].
  - left. by vm_compute.
Defined.

(** ** Construction and serialization *)

Lemma subscript_with_inv {A B} (f : A → result B) k d y :
  subscript_with f k d = inr y →
  ∃ v, subscript k d = inr v ∧ f v = inr y.
Proof.
  unfold subscript. induction d as [|[k' v] d IH]; simpl; [done|].
  destruct (String.eqb k k'); [|done]. intros H. by exists v.
Qed.

Section ParsingFacts.

Variable FilterType_match_str : string → option FilterType.
Variable FilterStrategy_match_str : string → option FilterStrategy.
Variable pydantic_int : pyval → option Z.

Local Abbreviation one_from_input := (one_from_input FilterType_match_str pydantic_int).
Local Abbreviation from_dict := (from_dict FilterType_match_str pydantic_int).
Local Abbreviation FilterOptions_from_dict := (FilterOptions_from_dict FilterStrategy_match_str).

Lemma one_from_input_matched target_type vals f :
  one_from_input target_type vals = inr f →
  ∃ k, FilterType_match_str target_type = Some k.
Proof.
  destruct vals; simpl; unfold match_type;
    destruct (FilterType_match_str target_type); eauto; done.
Qed.

(** Whatever the value, the filter has the kind the name resolves to. *)
Lemma one_from_input_type target_type vals k f :
  FilterType_match_str target_type = Some k →
  one_from_input target_type vals = inr f →
  filter_type f = k.
Proof.
  intros Hk. destruct vals as [s|z|l|d]; simpl; unfold match_type; rewrite Hk; simpl.
  - by intros [= <-].
  - done.
  - by intros [= <-].
  - destruct (bool_decide (k = CUI_AND_CHILDREN)); simpl; [|done].
    destruct (subscript "depth" d); simpl; [done|].
    destruct (subscript_with _ "cui" d); simpl; [done|].
    destruct (validate_int pydantic_int p); simpl; [done|].
    by intros [= <-].
Qed.

Lemma one_from_input_str target_type k s :
  FilterType_match_str target_type = Some k →
  one_from_input target_type (PStr s) = ret (TypedFilter k [s]).
Proof. intros Hk. simpl. unfold match_type. by rewrite Hk. Qed.

Lemma one_from_input_list target_type k l :
  FilterType_match_str target_type = Some k →
  one_from_input target_type (PList l) = ret (TypedFilter k l).
Proof. intros Hk. simpl. unfold match_type. by rewrite Hk. Qed.

Lemma one_from_input_dict_other target_type k d :
  FilterType_match_str target_type = Some k →
  k ≠ CUI_AND_CHILDREN →
  one_from_input target_type (PDict d) =
  throw (ValueError (misconfigured target_type)).
Proof.
  intros Hk Hne. simpl. unfold match_type. rewrite Hk. simpl.
  by rewrite bool_decide_eq_false_2.
Qed.

(** What the dict branch builds. *)
Lemma one_from_input_dict target_type d f :
  one_from_input target_type (PDict d) = inr f →
  ∃ vals delegate depth,
    FilterType_match_str target_type = Some CUI_AND_CHILDREN ∧
    subscript "cui" d = inr vals ∧
    one_from_input target_type vals = inr delegate ∧
    f = CUIWithChildFilter CUI_AND_CHILDREN delegate depth [].
Proof.
  simpl. unfold match_type.
  destruct (FilterType_match_str target_type) as [k|]; simpl; [|done].
  destruct (bool_decide_reflect (k = CUI_AND_CHILDREN)) as [->|]; simpl; [|done].
  destruct (subscript "depth" d) as [|dv]; simpl; [done|].
  destruct (subscript_with _ "cui" d) as [|delegate] eqn:Hcui; simpl; [done|].
  destruct (validate_int pydantic_int dv) as [|depth]; simpl; [done|].
  intros [= <-].
  apply subscript_with_inv in Hcui as (vals & Hv & Hdel).
  by exists vals, delegate, depth.
Qed.

(** C9: when the kind name resolves to [k], a string gives the filter of
    kind [k] whose values are that one string, a list gives the filter of
    kind [k] with the list as its values, and a mapping with [k] other
    than CUI_AND_CHILDREN gives no filter: the constructor raises the
    [ValueError]. *)
Theorem one_from_input_values (target_type : string) (k : FilterType) :
  FilterType_match_str target_type = Some k →
  (∀ s, one_from_input target_type (PStr s) = ret (TypedFilter k [s])) ∧
  (∀ l, one_from_input target_type (PList l) = ret (TypedFilter k l)) ∧
  (k ≠ CUI_AND_CHILDREN →
   ∀ d, one_from_input target_type (PDict d) =
        throw (ValueError (misconfigured target_type))).
Proof.
  intros Hk. split; [|split].
  - intros s. by apply one_from_input_str.
  - intros l. by apply one_from_input_list.
  - intros Hne d. by apply one_from_input_dict_other with k.
Qed.

(** C2, as the code has it: the constructor of the hierarchical filter
    accepts any delegate, and a hierarchical filter that [one_from_input]
    builds from a mapping has kind CUI_AND_CHILDREN, no values of its
    own, and a delegate of that same kind CUI_AND_CHILDREN. *)
Theorem hierarchical_delegate_kind (target_type : string)
    (d : list (string * pyval)) (f : Filter) :
  one_from_input target_type (PDict d) = inr f →
  (filter_type f = CUI_AND_CHILDREN ∧
   filter_values f = [] ∧
   ∃ delegate, filter_delegate f = Some delegate ∧
               filter_type delegate = CUI_AND_CHILDREN) ∧
  (∀ k delegate depth,
     new_CUIWithChildFilter k delegate depth =
     ret (CUIWithChildFilter k delegate depth [])).
Proof.
  intros H. split; [|done].
  apply one_from_input_dict in H as (vals & delegate & depth & Hk & _ & Hdel & ->).
  simpl. split; [done|]. split; [done|].
  exists delegate. split; [done|]. by eapply one_from_input_type.
Qed.

Hypothesis match_type_name :
  ∀ k, FilterType_match_str (FilterType_name k) = Some k.
Hypothesis match_strategy_name :
  ∀ s, FilterStrategy_match_str (FilterStrategy_name s) = Some s.
Hypothesis pydantic_int_int : ∀ z, pydantic_int (PInt z) = Some z.

Lemma roundtrip_simple k vs :
  from_dict (to_dict (TypedFilter k vs)) = ret [TypedFilter k vs].
Proof.
  simpl. unfold match_type. by rewrite match_type_name.
Qed.

Lemma roundtrip_hierarchical delegate depth vs :
  from_dict (to_dict (CUIWithChildFilter CUI_AND_CHILDREN delegate depth vs)) =
  ret [CUIWithChildFilter CUI_AND_CHILDREN
         (TypedFilter CUI_AND_CHILDREN (filter_values delegate)) depth []].
Proof.
  pose proof (match_type_name CUI_AND_CHILDREN) as Hk. simpl in Hk.
  simpl. unfold match_type. rewrite Hk. simpl.
  unfold validate_int. by rewrite pydantic_int_int.
Qed.

Lemma lower_str_bool b : String.eqb (lower (str_bool b)) "true" = b.
Proof. by destruct b. Qed.

Lemma roundtrip_options o :
  FilterOptions_from_dict (FilterOptions_to_dict o) = ret o.
Proof.
  destruct o as [s b]. unfold FilterOptions_from_dict, FilterOptions_to_dict. simpl.
  rewrite lookup_insert_ne by done. rewrite !lookup_insert_eq.
  unfold match_strategy. rewrite match_strategy_name. simpl.
  by rewrite lower_str_bool.
Qed.

End ParsingFacts.

Lemma loose_type_name k : loose_type (FilterType_name k) = Some k.
Proof. by destruct k. Qed.

Lemma loose_strategy_name s : loose_strategy (FilterStrategy_name s) = Some s.
Proof. by destruct s. Qed.

Lemma one_from_input_values_witness :
  one_from_input loose_type int_only "name" (PStr "fever") =
    ret (TypedFilter NAME ["fever"]) ∧
  one_from_input loose_type int_only "name"
    (PDict [("depth", PInt 1); ("cui", PStr "C1")]) =
    throw (ValueError (misconfigured "name")).
Proof.
  destruct (one_from_input_values loose_type int_only "name" NAME eq_refl)
    as (Hs & _ & Hd).
  split; [apply Hs | by apply Hd].
Defined.

Lemma hierarchical_delegate_kind_witness :
  ∃ delegate,
    filter_delegate
      (CUIWithChildFilter CUI_AND_CHILDREN (TypedFilter CUI_AND_CHILDREN ["C1"]) 2 []) =
      Some delegate ∧
    filter_type delegate = CUI_AND_CHILDREN.
Proof.
  apply (hierarchical_delegate_kind loose_type int_only "cui_and_children"
           [("depth", PInt 2); ("cui", PStr "C1")]).
  reflexivity.
Defined.

(** C2 as stated fails: a hierarchical filter with a NAME delegate is
    constructed without an error, and the delegate [one_from_input] builds
    is of kind CUI_AND_CHILDREN, not CUI. *)
Lemma hierarchical_delegate_not_checked :
  (∃ f, new_CUIWithChildFilter CUI_AND_CHILDREN (TypedFilter NAME ["fever"]) 1 = inr f ∧
        filter_type <$> filter_delegate f = Some NAME) ∧
  (∃ f, one_from_input loose_type int_only "CUI_AND_CHILDREN"
          (PDict [("depth", PInt 1); ("cui", PStr "C1")]) = inr f ∧
        filter_type <$> filter_delegate f = Some CUI_AND_CHILDREN ∧
        filter_type <$> filter_delegate f ≠ Some CUI).
Proof.
  split; eexists; (split; [reflexivity|]); [done | split; done].
Qed.

(** * Further properties *)

(** ** The constructor of the layer *)

Lemma init_children_dom names n2c types children :
  dom (cui2children (TranslationLayer_init names n2c types children)) =
  dom children ∪ dom names.
Proof.
  apply set_eq. intros c.
  rewrite elem_of_union, !elem_of_dom, init_children.
  destruct (children !! c) as [ch|], (names !! c) as [ns|];
    split; intros H; eauto; try (destruct H as [H|H]); eauto;
    by destruct H.
Qed.

(** X1: the constructor keeps the three other tables, keeps every entry
    the children table had, gives every concept-id of the names table that
    had none an empty children set, and touches nothing else. *)
Theorem init_children_table
    (names n2c types children : gmap string (gset string)) :
  let t := TranslationLayer_init names n2c types children in
  (cui2names t = names ∧ name2cuis t = n2c ∧ cui2type_ids t = types) ∧
  (∀ c, is_Some (names !! c) → is_Some (cui2children t !! c)) ∧
  (∀ c ch, children !! c = Some ch → cui2children t !! c = Some ch) ∧
  (∀ c, children !! c = None → is_Some (names !! c) →
        cui2children t !! c = Some ∅) ∧
  (∀ c, children !! c = None → names !! c = None → cui2children t !! c = None) ∧
  dom (cui2children t) = dom children ∪ dom names.
Proof.
  intros t. split; [done|]. split; [|split; [|split; [|split]]].
  - apply init_named_has_children.
  - intros c ch H. unfold t. by rewrite init_children, H.
  - intros c H [ns Hns]. unfold t. by rewrite init_children, H, Hns.
  - intros c H Hns. unfold t. by rewrite init_children, H, Hns.
  - apply init_children_dom.
Qed.

Lemma init_children_table_witness :
  cui2children dangling !! "B" = Some ∅ ∧
  cui2children dangling !! "ghost" = None.
Proof.
  pose proof (init_children_table
                {[ "A" := {[ "a" ]}; "B" := {[ "b" ]} ]} ∅ ∅
                {[ "A" := {[ "B"; "ghost" ]} ]}) as (_ & _ & _ & Hempty & Hnone & _).
  split.
  - apply Hempty; [by vm_compute | vm_compute; by eexists].
  - apply Hnone; by vm_compute.
Defined.

Lemma init_child_of names n2c types children c x :
  child_of (TranslationLayer_init names n2c types children) c x ↔
  child_of (mkTranslationLayer names n2c types children) c x.
Proof.
  unfold child_of. setoid_rewrite init_children. simpl. split.
  - intros (ch & H & Hx). destruct (children !! c) as [ch'|].
    + injection H as <-. eauto.
    + destruct (names !! c); [|done]. injection H as <-. set_solver.
  - intros (ch & H & Hx). rewrite H. eauto.
Qed.

Lemma within_ext t t' :
  (∀ c x, child_of t c x ↔ child_of t' c x) →
  ∀ n c x, within t n c x ↔ within t' n c x.
Proof.
  intros H n. induction n as [|n IH]; intros c x.
  - split; inversion 1.
  - rewrite !within_S. setoid_rewrite H. by setoid_rewrite IH.
Qed.

Lemma bool_ext (a b : bool) : (a = true ↔ b = true) → a = b.
Proof. destruct a, b; intros [H1 H2]; try done; [by rewrite H1 | by rewrite H2]. Qed.

Lemma init_again names n2c types children :
  let t := TranslationLayer_init names n2c types children in
  TranslationLayer_init (cui2names t) (name2cuis t) (cui2type_ids t) (cui2children t) = t.
Proof.
  intros t.
  transitivity (mkTranslationLayer names n2c types (cui2children t)); [|done].
  change (cui2names t) with names. change (name2cuis t) with n2c.
  change (cui2type_ids t) with types.
  unfold TranslationLayer_init at 1. f_equal. apply map_eq. intros c.
  rewrite foldl_default_children.
  unfold t. rewrite init_children.
  destruct (children !! c); [done|].
  destruct (names !! c) eqn:Hn; [done|].
  rewrite bool_decide_eq_false_2; [done|].
  rewrite elem_of_keys, Hn. by intros [? ?].
Qed.

(** X2: the empty sets the constructor adds are not seen by the hierarchy
    queries: [has_child_of] and [has_parent_of] answer on the layer as they
    would on the tables as given; and building a layer again from the
    tables of a layer changes nothing. *)
Theorem init_keeps_hierarchy
    (names n2c types children : gmap string (gset string)) :
  let t := TranslationLayer_init names n2c types children in
  let raw := mkTranslationLayer names n2c types children in
  (∀ found c depth, has_child_of t found c depth = has_child_of raw found c depth) ∧
  (∀ found c depth, has_parent_of t found c depth = has_parent_of raw found c depth) ∧
  TranslationLayer_init (cui2names t) (name2cuis t) (cui2type_ids t) (cui2children t) = t.
Proof.
  intros t raw.
  assert (Hw : ∀ n c x, within t n c x ↔ within raw n c x)
    by (apply within_ext; apply init_child_of).
  split; [|split].
  - intros found c depth. apply bool_ext.
    rewrite !has_child_of_within. by setoid_rewrite Hw.
  - intros found c depth. apply bool_ext.
    rewrite !has_parent_of_within. by setoid_rewrite Hw.
  - apply init_again.
Qed.

(** ** all_targets *)

Lemma all_targets_eq t :
  all_targets t = Gen.Mk (flat_map entry_targets (map_to_list (cui2names t))) None.
Proof.
  unfold all_targets. rewrite GenFacts.for_list_ok.
  - f_equal. apply flat_map_ext. intros [c ns].
    by rewrite GenFacts.for_list_yield.
  - intros [c ns] _. by rewrite GenFacts.for_list_yield.
Qed.

Lemma elem_of_entry_targets ti e :
  ti ∈ entry_targets e ↔ cui ti = e.1 ∧ val ti ∈ e.2.
Proof.
  destruct e as [c ns], ti as [c' v]. unfold entry_targets. simpl.
  rewrite list_elem_of_fmap. setoid_rewrite elem_of_elements. split.
  - by intros (n & [= -> ->] & Hn).
  - intros [-> Hv]. eauto.
Qed.

Lemma NoDup_entry_targets e : NoDup (entry_targets e).
Proof. apply (NoDup_fmap_2 _), NoDup_elements. Qed.

Lemma elem_of_flat_map_entries ti (l : list (string * gset string)) :
  ti ∈ flat_map entry_targets l ↔ ∃ e, e ∈ l ∧ ti ∈ entry_targets e.
Proof.
  rewrite list_elem_of_In, in_flat_map.
  split; intros (e & He & Hti); exists e; split;
    try (by apply list_elem_of_In); by apply list_elem_of_In.
Qed.

Lemma NoDup_flat_map_entries (l : list (string * gset string)) :
  NoDup l.*1 → NoDup (flat_map entry_targets l).
Proof.
  induction l as [|e l IH]; simpl; [constructor|].
  intros [Hnotin Hnd]%NoDup_cons. apply NoDup_app. split; [|split].
  - apply NoDup_entry_targets.
  - intros ti [Hc _]%elem_of_entry_targets (e' & He' & [Hc' _]%elem_of_entry_targets)%elem_of_flat_map_entries.
    apply Hnotin. apply list_elem_of_fmap. exists e'. split; [congruence | done].
  - by apply IH.
Qed.

(** X3: [all_targets] never raises; it yields a pair (c, name) exactly
    when [name] is registered under [c] in the names table, and yields no
    pair twice. *)
Theorem all_targets_exact (t : TranslationLayer) :
  Gen.outcome (all_targets t) = None ∧
  NoDup (Gen.yields (all_targets t)) ∧
  ∀ ti, ti ∈ Gen.yields (all_targets t) ↔
        ∃ names, cui2names t !! cui ti = Some names ∧ val ti ∈ names.
Proof.
  rewrite all_targets_eq. simpl. split; [done|]. split.
  - apply NoDup_flat_map_entries, NoDup_fst_map_to_list.
  - intros ti. rewrite elem_of_flat_map_entries. split.
    + intros ([c ns] & He & [Hc Hv]%elem_of_entry_targets). simpl in *.
      apply elem_of_map_to_list in He. exists ns. by rewrite Hc.
    + intros (ns & Hns & Hv). exists (cui ti, ns). split.
      * by apply elem_of_map_to_list.
      * by apply elem_of_entry_targets.
Qed.

(** ** More on generators *)

Lemma seq_yields_elem {A} (g1 g2 : Gen.t A) x :
  x ∈ Gen.yields (Gen.seq g1 g2) → x ∈ Gen.yields g1 ∨ x ∈ Gen.yields g2.
Proof.
  unfold Gen.seq. destruct (Gen.outcome g1); simpl; [by left|].
  by rewrite elem_of_app.
Qed.

Lemma for_list_yields_elem {A B} (l : list A) (body : A → Gen.t B) y :
  y ∈ Gen.yields (Gen.for_list l body) →
  ∃ x, x ∈ l ∧ y ∈ Gen.yields (body x).
Proof.
  induction l as [|x l IH]; simpl; [by intros ?%elem_of_nil|].
  intros [H|H]%seq_yields_elem.
  - exists x. split; [left | done].
  - destruct (IH H) as (x' & Hx' & Hy). exists x'. split; [by right | done].
Qed.

(** ** The hierarchy queries at every depth *)

Lemma within_mono t n m c x : (n ≤ m)%nat → within t n c x → within t m c x.
Proof.
  intros Hnm Hw. revert m Hnm.
  induction Hw as [n c x Hc | n c k x Hc Hw IH]; intros m Hnm;
    (destruct m as [|m]; [lia|]).
  - by constructor.
  - eapply within_step; [done|]. apply IH. lia.
Qed.

(** X4: at any depth, [has_child_of] is true exactly when one of the
    candidates is reached from the concept in at least one and at most
    max(1, depth) steps down the children table. *)
Theorem has_child_of_descendants (t : TranslationLayer) (found : list string)
    (c : string) (depth : Z) :
  has_child_of t found c depth = true ↔
  ∃ x, x ∈ found ∧ within t (Z.to_nat (Z.max 1 depth)) c x.
Proof. apply has_child_of_within. Qed.

(** X5: a positive answer of [has_child_of] stays positive when the depth
    grows and when candidates are added; without candidates the answer is
    [False]. *)
Theorem has_child_of_monotone (t : TranslationLayer) (found found' : list string)
    (c : string) (depth depth' : Z) :
  depth ≤ depth' → found ⊆ found' →
  has_child_of t found c depth = true →
  has_child_of t found' c depth' = true ∧ has_child_of t [] c depth = false.
Proof.
  intros Hd Hf H. split.
  - apply has_child_of_within in H as (x & Hx & Hw).
    apply has_child_of_within. exists x. split; [by apply Hf|].
    eapply within_mono; [|done]. unfold hops. lia.
  - apply not_true_is_false. intros (x & Hx & _)%has_child_of_within.
    by apply elem_of_nil in Hx.
Qed.

Lemma has_child_of_monotone_witness :
  has_child_of three_levels ["leaf"; "other"] "root" 5 = true ∧
  has_child_of three_levels [] "root" 2 = false.
Proof.
  apply (has_child_of_monotone three_levels ["leaf"] ["leaf"; "other"] "root" 2 5).
  - lia.
  - intros x ->%list_elem_of_singleton. left.
  - by vm_compute.
Defined.

Lemma existsb_pointwise {A} (f g : A → bool) (l : list A) :
  (∀ x, f x = g x) → existsb f l = existsb g l.
Proof. intros H. induction l as [|x l IH]; simpl; [done | by rewrite H, IH]. Qed.

(** X6: a depth below 1 is not refused: [has_child_of], [has_parent_of]
    and the expansion of the hierarchical filter treat it as depth 1. *)
Theorem depth_below_one (t : TranslationLayer) (found : list string)
    (c : string) (depth : Z) :
  depth ≤ 1 →
  has_child_of t found c depth = has_child_of t found c 1 ∧
  has_parent_of t found c depth = has_parent_of t found c 1 ∧
  get_children_of depth t c 1 = get_children_of 1 t c 1.
Proof.
  intros Hd.
  assert (Hc : ∀ f x, has_child_of t f x depth = has_child_of t f x 1).
  { intros f x. apply bool_ext. rewrite !has_child_of_within.
    unfold hops. by replace (Z.max 1 depth) with (Z.max 1 1) by lia. }
  split; [apply Hc|]. split.
  - unfold has_parent_of. apply existsb_pointwise. intros p. apply Hc.
  - rewrite (get_children_of_unfold depth), (get_children_of_unfold 1).
    destruct (cui2children t !! c); [|done].
    apply for_list_ext. intros child _.
    destruct (Z.ltb_spec 1 depth); [lia|]. done.
Qed.

Lemma depth_below_one_witness :
  has_child_of three_levels ["mid"] "root" (-3) = has_child_of three_levels ["mid"] "root" 1 ∧
  get_children_of 0 family "root" 1 = get_children_of 1 family "root" 1.
Proof.
  split.
  - apply (depth_below_one three_levels ["mid"] "root" (-3)). lia.
  - apply (depth_below_one family [] "root" 0). lia.
Defined.

(** ** What the expansion yields *)

Lemma targets_for_yields_elem t c ti :
  ti ∈ Gen.yields (targets_for t c) →
  cui ti = c ∧ ∃ names, cui2names t !! c = Some names ∧ val ti ∈ names.
Proof.
  destruct (cui2names t !! c) as [names|] eqn:Hn.
  - rewrite (targets_for_present _ _ _ Hn). simpl.
    intros (n & -> & Hin)%list_elem_of_fmap. simpl.
    split; [done|]. exists names. split; [done | by apply elem_of_elements].
  - rewrite (targets_for_absent _ _ Hn). simpl. by intros ?%elem_of_nil.
Qed.

Lemma get_children_of_yields_within self_depth t n :
  ∀ c cur_depth ti,
    Z.to_nat (self_depth - cur_depth) = n →
    ti ∈ Gen.yields (get_children_of self_depth t c cur_depth) →
    within t (hops (self_depth - cur_depth + 1)) c (cui ti) ∧
    ti ∈ targets_of t (cui ti).
Proof.
  induction n as [|n IH]; intros c cur_depth ti Hn;
    rewrite get_children_of_unfold;
    (destruct (cui2children t !! c) as [children|] eqn:Hc;
       [|by intros ?%elem_of_nil]);
    intros (child & Hchild%elem_of_elements & [H|H]%seq_yields_elem)%for_list_yields_elem;
    assert (Hco : child_of t c child) by (by exists children).
  - pose proof H as [<- _]%targets_for_yields_elem.
    split; [|done]. unfold hops.
    replace (Z.to_nat _) with 1%nat by lia. by constructor.
  - destruct (Z.ltb_spec cur_depth self_depth); [lia|]. by apply elem_of_nil in H.
  - pose proof H as [<- _]%targets_for_yields_elem.
    split; [|done]. unfold hops.
    replace (Z.to_nat (Z.max 1 (self_depth - cur_depth + 1))) with (S (S n)) by lia.
    by constructor.
  - destruct (Z.ltb_spec cur_depth self_depth); [|by apply elem_of_nil in H].
    apply IH in H as [Hw Ht]; [|lia]. split; [|done].
    unfold hops in *.
    replace (Z.to_nat (Z.max 1 (self_depth - cur_depth + 1)))
      with (S (Z.to_nat (Z.max 1 (self_depth - (cur_depth + 1) + 1)))) by lia.
    by eapply within_step.
Qed.

(** X7: whatever [get_children_of] yields, also before it stops with an
    error, is a target of a descendant of the concept within the depth of
    the filter: the concept-id of the target is found by [has_child_of] at
    that depth, and the pair is one [targets_for] yields for it. *)
Theorem get_children_of_sound (self_depth : Z) (t : TranslationLayer)
    (c : string) (ti : TargetInfo) :
  ti ∈ Gen.yields (get_children_of self_depth t c 1) →
  has_child_of t [cui ti] c self_depth = true ∧
  ti ∈ Gen.yields (targets_for t (cui ti)).
Proof.
  intros H.
  apply (get_children_of_yields_within self_depth t _ c 1 ti eq_refl) in H as [Hw Ht].
  split; [|done].
  apply has_child_of_within. exists (cui ti). split; [left|].
  by replace (self_depth - 1 + 1) with self_depth in Hw by lia.
Qed.

Lemma get_children_of_sound_witness :
  has_child_of family ["leaf"] "root" 2 = true ∧
  mkTargetInfo "leaf" "l" ∈ Gen.yields (targets_for family "leaf").
Proof.
  apply (get_children_of_sound 2 family "root" (mkTargetInfo "leaf" "l")).
  apply (bool_decide_unpack _). by vm_compute.
Defined.

Lemma closed_children t c x :
  closed t → child_of t c x → is_Some (cui2children t !! x).
Proof. intros Hcl H. by destruct (Hcl c x H). Qed.

Lemma get_children_of_closed self_depth t n :
  closed t →
  ∀ c cur_depth,
    Z.to_nat (self_depth - cur_depth) = n →
    is_Some (cui2children t !! c) →
    Gen.outcome (get_children_of self_depth t c cur_depth) = None ∧
    ∀ d, within t (hops (self_depth - cur_depth + 1)) c d →
         ∀ ti, ti ∈ targets_of t d →
               ti ∈ Gen.yields (get_children_of self_depth t c cur_depth).
Proof.
  intros Hcl. induction n as [|n IH]; intros c cur_depth Hn [children Hc];
    rewrite get_children_of_unfold, Hc.
  - assert (Hbody : ∀ child, child ∈ elements children →
      Gen.seq (targets_for t child)
        (if cur_depth <? self_depth
         then get_children_of self_depth t child (cur_depth + 1) else Gen.done) =
      Gen.Mk (targets_of t child) None).
    { intros child Hin%elem_of_elements.
      destruct (Z.ltb_spec cur_depth self_depth); [lia|].
      rewrite GenFacts.seq_done_r.
      destruct (Hcl c child) as [[ns Hns] _]; [by exists children|].
      unfold targets_of. by rewrite (targets_for_present _ _ _ Hns). }
    rewrite (for_list_ext _ _ _ Hbody).
    rewrite GenFacts.for_list_ok by done. simpl. split; [done|].
    intros d Hw ti Hti. unfold hops in Hw.
    replace (Z.to_nat _) with 1%nat in Hw by lia.
    apply within_1 in Hw as (ch & Hch & Hd). rewrite Hc in Hch. injection Hch as <-.
    apply list_elem_of_In, in_flat_map. exists d.
    split; apply list_elem_of_In; [by apply elem_of_elements | done].
  - assert (Hlt : cur_depth < self_depth) by lia.
    assert (Hbody : ∀ child, child ∈ elements children →
      Gen.outcome (Gen.seq (targets_for t child)
        (if cur_depth <? self_depth
         then get_children_of self_depth t child (cur_depth + 1) else Gen.done)) = None).
    { intros child Hin%elem_of_elements.
      destruct (Z.ltb_spec cur_depth self_depth); [|lia].
      destruct (Hcl c child) as [[ns Hns] Hch]; [by exists children|].
      apply GenFacts.seq_outcome_None. split.
      - by rewrite (targets_for_present _ _ _ Hns).
      - apply (IH child (cur_depth + 1)); [lia | done]. }
    rewrite GenFacts.for_list_ok by done. simpl. split; [done|].
    intros d Hw ti Hti. unfold hops in Hw.
    replace (Z.to_nat (Z.max 1 (self_depth - cur_depth + 1)))
      with (S (Z.to_nat (Z.max 1 (self_depth - (cur_depth + 1) + 1)))) in Hw by lia.
    apply within_S in Hw as [(ch & Hch & Hd) | (m & (ch & Hch & Hm) & Hw)];
      rewrite Hc in Hch; injection Hch as <-;
      apply list_elem_of_In, in_flat_map.
    + exists d. split; [by apply list_elem_of_In, elem_of_elements|].
      apply list_elem_of_In.
      destruct (Hcl c d) as [[ns Hns] Hch]; [by exists children|].
      rewrite GenFacts.seq_ok by (by rewrite (targets_for_present _ _ _ Hns)).
      simpl. apply elem_of_app. by left.
    + exists m. split; [by apply list_elem_of_In, elem_of_elements|].
      apply list_elem_of_In.
      destruct (Hcl c m) as [[ns Hns] Hch]; [by exists children|].
      rewrite GenFacts.seq_ok by (by rewrite (targets_for_present _ _ _ Hns)).
      simpl. apply elem_of_app. right.
      destruct (Z.ltb_spec cur_depth self_depth); [|lia].
      destruct (IH m (cur_depth + 1) ltac:(lia) Hch) as [_ Hy].
      by apply (Hy d).
Qed.

(** X8: on a layer where every concept-id listed as a child has names and
    a children set, the expansion of a concept that has a children set
    never raises, at any depth, and yields exactly the targets of the
    descendants within the depth of the filter. *)
Theorem get_children_of_complete (self_depth : Z) (t : TranslationLayer) (c : string) :
  closed t → is_Some (cui2children t !! c) →
  Gen.outcome (get_children_of self_depth t c 1) = None ∧
  ∀ ti, ti ∈ Gen.yields (get_children_of self_depth t c 1) ↔
        ∃ d, within t (hops self_depth) c d ∧ ti ∈ targets_of t d.
Proof.
  intros Hcl Hc.
  destruct (get_children_of_closed self_depth t _ Hcl c 1 eq_refl Hc) as [Ho Hy].
  split; [done|]. intros ti. split.
  - intros H.
    apply (get_children_of_yields_within self_depth t _ c 1 ti eq_refl) in H as [Hw Ht].
    exists (cui ti). split; [|done].
    by replace (self_depth - 1 + 1) with self_depth in Hw by lia.
  - intros (d & Hw & Ht). apply (Hy d); [|done].
    by replace (self_depth - 1 + 1) with self_depth by lia.
Qed.

Lemma init_closed names n2c types children :
  (∀ c ch x, children !! c = Some ch → x ∈ ch → is_Some (names !! x)) →
  closed (TranslationLayer_init names n2c types children).
Proof.
  intros H c x Hco.
  apply (proj1 (init_child_of names n2c types children c x)) in Hco
    as (ch & Hc & Hx). simpl in Hc.
  pose proof (H c ch x Hc Hx) as Hn. split; [done|].
  by apply init_named_has_children.
Qed.

Lemma family_closed : closed family.
Proof.
  apply init_closed. intros c ch x Hc Hx. unfold ex_children in Hc.
  apply lookup_insert_Some in Hc as [[<- <-] | [_ Hc]].
  - apply elem_of_singleton in Hx as ->. vm_compute. by eexists.
  - apply lookup_singleton_Some in Hc as [<- <-].
    apply elem_of_singleton in Hx as ->. vm_compute. by eexists.
Qed.

Lemma get_children_of_complete_witness :
  Gen.outcome (get_children_of 2 family "root" 1) = None.
Proof.
  apply (get_children_of_complete 2 family "root").
  - apply family_closed.
  - vm_compute. by eexists.
Defined.

(** ** Simple filters *)

Lemma for_gen_map_yields {A B} (g : Gen.t A) (body : A → Gen.t B) (f : A → list B) :
  (∀ x, body x = Gen.Mk (f x) None) →
  Gen.for_gen g body = Gen.Mk (flat_map f (Gen.yields g)) (Gen.outcome g).
Proof.
  intros H. unfold Gen.for_gen.
  rewrite GenFacts.for_list_ok by (intros x _; by rewrite H).
  unfold Gen.seq. simpl. rewrite app_nil_r. f_equal.
  apply flat_map_ext. intros x. by rewrite H.
Qed.

(** A simple filter repeats every target of its input [multiplicity]
    times and stops as its input stops. *)
Lemma TypedFilter_repeat k vs t g :
  get_applicable_targets (TypedFilter k vs) t g =
  Gen.Mk (flat_map (fun ti => repeat ti (multiplicity k vs t ti)) (Gen.yields g))
         (Gen.outcome g).
Proof.
  destruct k; simpl; try (apply for_gen_map_yields; intros ti; by destruct (py_in _ _)).
  apply TYPE_ID_targets.
Qed.

Lemma flat_map_filter {A} (p : A → bool) (l : list A) :
  flat_map (fun x => repeat x (if p x then 1 else 0)%nat) l = List.filter p l.
Proof.
  induction l as [|x l IH]; simpl; [done|]. rewrite IH. by destruct (p x).
Qed.

(** X9: the CUI filter, the NAME filter and a simple filter of kind
    CUI_AND_CHILDREN select: they yield, in the order of the input and once
    each, the targets whose concept-id (for NAME: whose name) is among the
    values, and they stop as their input stops, error included. *)
Theorem simple_filters_select (vs : list string) (t : TranslationLayer)
    (g : Gen.t TargetInfo) :
  get_applicable_targets (TypedFilter CUI vs) t g =
    Gen.Mk (List.filter (fun ti => py_in (cui ti) vs) (Gen.yields g)) (Gen.outcome g) ∧
  get_applicable_targets (TypedFilter CUI_AND_CHILDREN vs) t g =
    get_applicable_targets (TypedFilter CUI vs) t g ∧
  get_applicable_targets (TypedFilter NAME vs) t g =
    Gen.Mk (List.filter (fun ti => py_in (val ti) vs) (Gen.yields g)) (Gen.outcome g).
Proof.
  rewrite !TypedFilter_repeat. unfold multiplicity.
  by rewrite !flat_map_filter.
Qed.

Lemma flat_map_repeat {A} (f : A → nat) (x : A) (n : nat) :
  flat_map (fun y => repeat y (f y)) (repeat x n) = repeat x (n * f x).
Proof.
  induction n as [|n IH]; simpl; [done|].
  rewrite IH. by rewrite repeat_app.
Qed.

Lemma flat_map_flat_map {A B C} (f : A → list B) (g : B → list C) (l : list A) :
  flat_map g (flat_map f l) = flat_map (fun x => flat_map g (f x)) l.
Proof.
  induction l as [|x l IH]; simpl; [done|].
  by rewrite flat_map_app, IH.
Qed.

Lemma TypedFilter_twice k1 vs1 k2 vs2 t g :
  get_applicable_targets (TypedFilter k1 vs1) t
    (get_applicable_targets (TypedFilter k2 vs2) t g) =
  Gen.Mk (flat_map (fun ti => repeat ti (multiplicity k2 vs2 t ti * multiplicity k1 vs1 t ti))
                   (Gen.yields g))
         (Gen.outcome g).
Proof.
  rewrite (TypedFilter_repeat k1), (TypedFilter_repeat k2). simpl. f_equal.
  rewrite flat_map_flat_map. apply flat_map_ext. intros ti.
  apply flat_map_repeat.
Qed.

(** X10: two simple filters applied one after the other give the same
    sequence in either order: each target of the input as many times as
    the product of the times each filter alone yields it. *)
Theorem simple_filters_commute (k1 k2 : FilterType) (vs1 vs2 : list string)
    (t : TranslationLayer) (g : Gen.t TargetInfo) :
  get_applicable_targets (TypedFilter k1 vs1) t
    (get_applicable_targets (TypedFilter k2 vs2) t g) =
  get_applicable_targets (TypedFilter k2 vs2) t
    (get_applicable_targets (TypedFilter k1 vs1) t g).
Proof.
  rewrite !TypedFilter_twice. f_equal.
  apply flat_map_ext. intros ti. f_equal. apply Nat.mul_comm.
Qed.

Lemma matching_categories_nil t c : matching_categories t [] c = 0%nat.
Proof.
  unfold matching_categories. apply size_empty_iff, elem_of_equiv_empty.
  intros x [Hx _]%elem_of_filter. by apply elem_of_nil in Hx.
Qed.

(** X11: applying a CUI, NAME or simple CUI_AND_CHILDREN filter a second
    time changes nothing; a filter without values yields nothing, whatever
    its kind. *)
Theorem simple_filter_idempotent (k : FilterType) (vs : list string)
    (t : TranslationLayer) (g : Gen.t TargetInfo) :
  (k ≠ TYPE_ID →
   get_applicable_targets (TypedFilter k vs) t
     (get_applicable_targets (TypedFilter k vs) t g) =
   get_applicable_targets (TypedFilter k vs) t g) ∧
  Gen.yields (get_applicable_targets (TypedFilter k []) t g) = [].
Proof.
  split.
  - intros Hk. rewrite TypedFilter_twice, TypedFilter_repeat. f_equal.
    apply flat_map_ext. intros ti. f_equal.
    destruct k; try done; simpl; by destruct (py_in _ _).
  - rewrite TypedFilter_repeat. simpl.
    assert (∀ ti, multiplicity k [] t ti = 0%nat) as H.
    { intros ti. destruct k; simpl; try done. apply matching_categories_nil. }
    induction (Gen.yields g) as [|ti l IH]; simpl; [done|].
    by rewrite H, IH.
Qed.

Lemma simple_filter_idempotent_witness :
  get_applicable_targets (TypedFilter NAME ["b"]) abc
    (get_applicable_targets (TypedFilter NAME ["b"]) abc (all_targets abc)) =
  get_applicable_targets (TypedFilter NAME ["b"]) abc (all_targets abc).
Proof.
  apply (simple_filter_idempotent NAME ["b"] abc (all_targets abc)). done.
Defined.

Lemma filter_entries_other c (l : list (string * gset string)) :
  c ∉ l.*1 →
  List.filter (fun ti => py_in (cui ti) [c]) (flat_map entry_targets l) = [].
Proof.
  induction l as [|[k ns] l IH]; simpl; [done|].
  intros Hnotin. rewrite List.filter_app, IH.
  2:{ intros H. apply Hnotin. by right. }
  rewrite app_nil_r. unfold entry_targets. simpl.
  assert (c ≠ k) as Hne by (intros ->; apply Hnotin; left).
  induction (elements ns) as [|n ns' IHn]; simpl; [done|].
  unfold py_in at 1. simpl. rewrite bool_decide_eq_false_2; [done|].
  by intros ->%list_elem_of_singleton.
Qed.

Lemma filter_entry_same c ns :
  List.filter (fun ti => py_in (cui ti) [c]) (entry_targets (c, ns)) =
  entry_targets (c, ns).
Proof.
  unfold entry_targets. simpl.
  induction (elements ns) as [|n ns' IHn]; simpl; [done|].
  unfold py_in at 1. simpl. rewrite bool_decide_eq_true_2 by left. by rewrite IHn.
Qed.

Lemma filter_entries_same c ns (l : list (string * gset string)) :
  NoDup l.*1 → (c, ns) ∈ l →
  List.filter (fun ti => py_in (cui ti) [c]) (flat_map entry_targets l) =
  entry_targets (c, ns).
Proof.
  induction l as [|[k ns'] l IH]; simpl; [by intros _ ?%elem_of_nil|].
  intros [Hnotin Hnd]%NoDup_cons Hin. rewrite List.filter_app.
  apply elem_of_cons in Hin as [[= <- <-] | Hin].
  - rewrite filter_entry_same, filter_entries_other by done. apply app_nil_r.
  - rewrite (IH Hnd Hin).
    assert (c ≠ k) as Hne.
    { intros ->. apply Hnotin. apply list_elem_of_fmap. by exists (k, ns). }
    pose proof (filter_entries_other c [(k, ns')]) as H. simpl in H.
    rewrite app_nil_r in H. rewrite H; [done|].
    by intros ->%list_elem_of_singleton.
Qed.

(** X12: selecting one concept-id out of [all_targets] gives what
    [targets_for] yields for it, in the same order, when the concept-id is
    in the names table; it gives nothing, and no error, when it is not
    (where [targets_for] raises). *)
Theorem CUI_filter_of_all_targets (t : TranslationLayer) (c : string) :
  (is_Some (cui2names t !! c) →
   get_applicable_targets (TypedFilter CUI [c]) t (all_targets t) = targets_for t c) ∧
  (cui2names t !! c = None →
   get_applicable_targets (TypedFilter CUI [c]) t (all_targets t) = Gen.done).
Proof.
  destruct (simple_filters_select [c] t (all_targets t)) as [-> _].
  rewrite all_targets_eq. simpl. split.
  - intros [ns Hns]. rewrite (targets_for_present _ _ _ Hns).
    rewrite (filter_entries_same c ns); [done | apply NoDup_fst_map_to_list |].
    by apply elem_of_map_to_list.
  - intros Hn. rewrite filter_entries_other; [done|].
    rewrite elem_of_keys, Hn. by intros [? ?].
Qed.

Lemma CUI_filter_of_all_targets_witness :
  get_applicable_targets (TypedFilter CUI ["B"]) abc (all_targets abc) =
    targets_for abc "B" ∧
  get_applicable_targets (TypedFilter CUI ["Z"]) abc (all_targets abc) = Gen.done.
Proof.
  split.
  - apply (CUI_filter_of_all_targets abc "B"). vm_compute. by eexists.
  - apply (CUI_filter_of_all_targets abc "Z"). by vm_compute.
Defined.

(** ** Filters on well-formed layers *)

Lemma for_gen_yields_elem {A B} (g : Gen.t A) (body : A → Gen.t B) y :
  y ∈ Gen.yields (Gen.for_gen g body) →
  ∃ x, x ∈ Gen.yields g ∧ y ∈ Gen.yields (body x).
Proof.
  unfold Gen.for_gen. intros [H|H]%seq_yields_elem.
  - by apply for_list_yields_elem.
  - by apply elem_of_nil in H.
Qed.

Lemma for_gen_outcome_None {A B} (g : Gen.t A) (body : A → Gen.t B) :
  Gen.outcome (Gen.for_gen g body) = None ↔
  Gen.outcome g = None ∧ ∀ x, x ∈ Gen.yields g → Gen.outcome (body x) = None.
Proof.
  unfold Gen.for_gen.
  rewrite GenFacts.seq_outcome_None, GenFacts.for_list_outcome_None. simpl. tauto.
Qed.

Lemma for_gen_yields_ok {A B} (g : Gen.t A) (body : A → Gen.t B) x y :
  Gen.outcome (Gen.for_gen g body) = None →
  x ∈ Gen.yields g → y ∈ Gen.yields (body x) →
  y ∈ Gen.yields (Gen.for_gen g body).
Proof.
  intros [Hg Hb]%for_gen_outcome_None Hx Hy. unfold Gen.for_gen.
  rewrite GenFacts.for_list_ok by done. unfold Gen.seq. simpl.
  rewrite app_nil_r. apply list_elem_of_In, in_flat_map.
  exists x. split; by apply list_elem_of_In.
Qed.

Lemma TypedFilter_yields_elem k vs t g ti :
  ti ∈ Gen.yields (get_applicable_targets (TypedFilter k vs) t g) →
  ti ∈ Gen.yields g.
Proof.
  rewrite TypedFilter_repeat. simpl.
  intros (x & Hx & Hr)%list_elem_of_In%in_flat_map.
  apply repeat_spec in Hr as ->. by apply list_elem_of_In.
Qed.

Lemma expansion_body_elem depth t p ti :
  ti ∈ Gen.yields (Gen.seq (Gen.yield p) (get_children_of depth t (cui p) 1)) →
  ti = p ∨ ti ∈ Gen.yields (get_children_of depth t (cui p) 1).
Proof.
  intros [H|H]%seq_yields_elem; [left | by right].
  simpl in H. by apply list_elem_of_singleton in H.
Qed.

Lemma filters_on_closed f :
  ∀ t g,
    closed t →
    (∀ c, is_Some (cui2names t !! c) → is_Some (cui2children t !! c)) →
    Gen.outcome g = None →
    (∀ ti, ti ∈ Gen.yields g → named t ti) →
    Gen.outcome (get_applicable_targets f t g) = None ∧
    ∀ ti, ti ∈ Gen.yields (get_applicable_targets f t g) → named t ti.
Proof.
  induction f as [k vs | k delegate IH depth vs]; intros t g Hcl Hinv Hg Hnamed.
  - split.
    + by rewrite TypedFilter_repeat.
    + intros ti Hti. by apply Hnamed, (TypedFilter_yields_elem k vs t).
  - destruct (IH t g Hcl Hinv Hg Hnamed) as [Ho Hn]. simpl. split.
    + apply for_gen_outcome_None. split; [done|].
      intros p Hp. apply GenFacts.seq_outcome_None. split; [done|].
      apply (get_children_of_closed depth t _ Hcl (cui p) 1 eq_refl).
      by apply Hinv, Hn.
    + intros ti (p & Hp & [-> | Hti]%expansion_body_elem)%for_gen_yields_elem.
      * by apply Hn.
      * apply (get_children_of_yields_within depth t _ _ 1 ti eq_refl) in Hti as [_ Hti].
        apply targets_for_yields_elem in Hti as [_ (ns & Hns & _)].
        unfold named. by rewrite Hns.
Qed.

Lemma all_targets_named t ti : ti ∈ Gen.yields (all_targets t) → named t ti.
Proof.
  rewrite all_targets_eq. simpl.
  intros ([c ns] & He & [Hc _]%elem_of_entry_targets)%elem_of_flat_map_entries.
  apply elem_of_map_to_list in He. unfold named. simpl in Hc. rewrite Hc. by eexists.
Qed.

(** X13: when every concept-id listed in a children set is in the names
    table, no filter, however its delegates are nested and whatever its
    depth, raises on [all_targets()] of the layer the constructor builds;
    and every target it yields has a concept-id of the names table. *)
Theorem filters_never_raise
    (names n2c types children : gmap string (gset string)) (f : Filter) :
  (∀ c ch x, children !! c = Some ch → x ∈ ch → is_Some (names !! x)) →
  let t := TranslationLayer_init names n2c types children in
  Gen.outcome (get_applicable_targets f t (all_targets t)) = None ∧
  ∀ ti, ti ∈ Gen.yields (get_applicable_targets f t (all_targets t)) →
        is_Some (names !! cui ti).
Proof.
  intros H t. apply filters_on_closed.
  - by apply init_closed.
  - apply init_named_has_children.
  - by rewrite all_targets_eq.
  - apply all_targets_named.
Qed.

Lemma ex_children_named c ch x :
  ex_children !! c = Some ch → x ∈ ch →
  is_Some (({[ "root" := {[ "r" ]}; "mid" := {[ "m" ]}; "leaf" := {[ "l" ]} ]}
             : gmap string (gset string)) !! x).
Proof.
  intros Hc Hx. unfold ex_children in Hc.
  apply lookup_insert_Some in Hc as [[<- <-] | [_ Hc]].
  - apply elem_of_singleton in Hx as ->. vm_compute. by eexists.
  - apply lookup_singleton_Some in Hc as [<- <-].
    apply elem_of_singleton in Hx as ->. vm_compute. by eexists.
Qed.

Lemma filters_never_raise_witness :
  Gen.outcome (get_applicable_targets
                 (CUIWithChildFilter CUI_AND_CHILDREN
                    (TypedFilter CUI_AND_CHILDREN ["root"]) 5 [])
                 family (all_targets family)) = None.
Proof.
  apply (filters_never_raise
           {[ "root" := {[ "r" ]}; "mid" := {[ "m" ]}; "leaf" := {[ "l" ]} ]} ∅ ∅
           ex_children
           (CUIWithChildFilter CUI_AND_CHILDREN
              (TypedFilter CUI_AND_CHILDREN ["root"]) 5 [])).
  apply ex_children_named.
Defined.

(** X14: every target the hierarchical filter yields is a target its
    delegate yields, or a target of a concept that [has_child_of] finds
    below the concept of such a target within the depth of the filter; and
    when the filter finishes, every target of the delegate is among its
    yields. *)
Theorem hierarchical_filter_yields (k : FilterType) (delegate : Filter)
    (depth : Z) (vs : list string) (t : TranslationLayer) (g : Gen.t TargetInfo) :
  let out := get_applicable_targets (CUIWithChildFilter k delegate depth vs) t g in
  (∀ ti, ti ∈ Gen.yields out →
     ∃ p, p ∈ Gen.yields (get_applicable_targets delegate t g) ∧
          (ti = p ∨
           (has_child_of t [cui ti] (cui p) depth = true ∧
            ti ∈ Gen.yields (targets_for t (cui ti))))) ∧
  (Gen.outcome out = None →
   ∀ p, p ∈ Gen.yields (get_applicable_targets delegate t g) → p ∈ Gen.yields out).
Proof.
  intros out. split.
  - intros ti (p & Hp & [-> | Hti]%expansion_body_elem)%for_gen_yields_elem.
    + exists p. split; [done | by left].
    + exists p. split; [done|]. right.
      apply (get_children_of_yields_within depth t _ _ 1 ti eq_refl) in Hti as [Hw Ht].
      split; [|done].
      apply has_child_of_within. exists (cui ti). split; [left|].
      by replace (depth - 1 + 1) with depth in Hw by lia.
  - intros Ho p Hp. unfold out. simpl.
    eapply for_gen_yields_ok; [done | done |].
    unfold Gen.seq. simpl. left.
Qed.

Lemma hierarchical_filter_yields_witness :
  mkTargetInfo "A" "a" ∈
    Gen.yields (get_applicable_targets A_and_children abc (all_targets abc)).
Proof.
  apply (proj2 (hierarchical_filter_yields CUI_AND_CHILDREN
                  (TypedFilter CUI_AND_CHILDREN ["A"]) 1 [] abc (all_targets abc))).
  - by vm_compute.
  - apply (bool_decide_unpack _). by vm_compute.
Defined.

(** ** Layers from a database *)

Lemma no_children_child_of names n2c types c x :
  ¬ child_of (TranslationLayer_init names n2c types ∅) c x.
Proof.
  intros H. apply (proj1 (init_child_of names n2c types ∅ c x)) in H
    as (ch & Hc & _). simpl in Hc. by rewrite lookup_empty in Hc.
Qed.

Lemma for_gen_yield {A} (g : Gen.t A) :
  Gen.for_gen g (fun x => Gen.seq (Gen.yield x) Gen.done) = g.
Proof.
  rewrite (for_gen_map_yields g _ (fun x => [x])) by done.
  destruct g as [ys o]. simpl. f_equal.
  induction ys as [|y ys IH]; simpl; [done | by rewrite IH].
Qed.

Lemma no_children_expansion names n2c types depth p :
  let t := TranslationLayer_init names n2c types ∅ in
  named t p → get_children_of depth t (cui p) 1 = Gen.done.
Proof.
  intros t [ns Hns]. rewrite get_children_of_unfold.
  unfold t. rewrite init_children, lookup_empty.
  simpl in Hns. rewrite Hns. by rewrite elements_empty.
Qed.

Lemma no_children_filters names n2c types f :
  let t := TranslationLayer_init names n2c types ∅ in
  ∀ g, (∀ ti, ti ∈ Gen.yields g → named t ti) →
       get_applicable_targets f t g = get_applicable_targets (base_filter f) t g.
Proof.
  intros t. induction f as [k vs | k delegate IH depth vs]; intros g Hg; [done|].
  simpl. rewrite <- (IH g Hg).
  assert (Hn : ∀ ti, ti ∈ Gen.yields (get_applicable_targets delegate t g) → named t ti).
  { intros ti. rewrite (IH g Hg).
    destruct (base_filter delegate) as [k' vs' | ] eqn:Hb.
    - intros H. by apply Hg, (TypedFilter_yields_elem k' vs' t).
    - exfalso. clear -Hb. induction delegate; simpl in Hb; [done | auto]. }
  set (g' := get_applicable_targets delegate t g) in *.
  rewrite <- (for_gen_yield g') at 2.
  unfold Gen.for_gen. f_equal. apply for_list_ext. intros p Hp.
  f_equal. by apply no_children_expansion, Hn.
Qed.

(** X15: from a database without ['pt2ch'] [from_CDB] logs one warning
    and leaves the database as it is; on the layer it returns
    [has_child_of] and [has_parent_of] are false whatever is asked, and a
    hierarchical filter applied to targets of the names table does what the
    simple filter at the bottom of its delegates does. *)
Theorem from_CDB_without_hierarchy (cdb : CDB) :
  addl_info cdb !! "pt2ch" = None →
  let r := from_CDB cdb in
  logged r = [no_pt2ch_warning] ∧ cdb_after r = cdb ∧
  (∀ found c depth, has_child_of (layer r) found c depth = false) ∧
  (∀ found c depth, has_parent_of (layer r) found c depth = false) ∧
  (∀ f g, (∀ ti, ti ∈ Gen.yields g → named (layer r) ti) →
     get_applicable_targets f (layer r) g =
     get_applicable_targets (base_filter f) (layer r) g).
Proof.
  intros H r. unfold r, from_CDB. rewrite H. simpl.
  split; [done|]. split; [done|].
  assert (Hw : ∀ n c x,
    ¬ within (TranslationLayer_init (cdb_cui2names cdb) (cdb_name2cuis cdb)
                (cdb_cui2type_ids cdb) ∅) n c x).
  { intros n c x Hw. destruct Hw as [? ? ? Hc | ? ? ? ? Hc _];
      by apply no_children_child_of in Hc. }
  split; [|split].
  - intros found c depth. apply not_true_is_false.
    intros (x & _ & Hx)%has_child_of_within. by apply Hw in Hx.
  - intros found c depth. apply not_true_is_false.
    intros (x & _ & Hx)%has_parent_of_within. by apply Hw in Hx.
  - intros f g Hg. by apply no_children_filters.
Qed.

(** X16: from a database with ['pt2ch'] [from_CDB] logs nothing and builds
    the layer on that table; the table stored in the database is the very
    one the layer uses, so afterwards it has an empty set for every
    concept-id of the names table it had no entry for; the other entries
    of [addl_info] and the other tables are as before. *)
Theorem from_CDB_with_hierarchy (cdb : CDB) (pt2ch : gmap string (gset string)) :
  addl_info cdb !! "pt2ch" = Some pt2ch →
  let r := from_CDB cdb in
  logged r = [] ∧
  layer r = TranslationLayer_init (cdb_cui2names cdb) (cdb_name2cuis cdb)
              (cdb_cui2type_ids cdb) pt2ch ∧
  addl_info (cdb_after r) !! "pt2ch" = Some (cui2children (layer r)) ∧
  (∀ c, pt2ch !! c = None → is_Some (cdb_cui2names cdb !! c) →
        cui2children (layer r) !! c = Some ∅) ∧
  (∀ key, key ≠ "pt2ch" → addl_info (cdb_after r) !! key = addl_info cdb !! key) ∧
  cdb_cui2names (cdb_after r) = cdb_cui2names cdb ∧
  cdb_name2cuis (cdb_after r) = cdb_name2cuis cdb ∧
  cdb_cui2type_ids (cdb_after r) = cdb_cui2type_ids cdb.
Proof.
  intros H r. unfold r, from_CDB. rewrite H. cbn [logged layer cdb_after addl_info
    cdb_cui2names cdb_name2cuis cdb_cui2type_ids].
  split; [done|]. split; [done|]. split; [apply lookup_insert_eq|].
  split; [|split; [|done]].
  - intros c Hc [ns Hns]. by rewrite init_children, Hc, Hns.
  - intros key Hne. by rewrite lookup_insert_ne.
Qed.

Lemma from_CDB_without_hierarchy_witness :
  logged (from_CDB cdb_flat) = [no_pt2ch_warning] ∧
  has_child_of (layer (from_CDB cdb_flat)) ["B"] "A" 3 = false.
Proof.
  pose proof (from_CDB_without_hierarchy cdb_flat eq_refl) as (Hl & _ & Hc & _).
  split; [exact Hl | apply Hc].
Defined.

Lemma from_CDB_with_hierarchy_witness :
  cui2children (layer (from_CDB cdb_tree)) !! "B" = Some ∅.
Proof.
  pose proof (from_CDB_with_hierarchy cdb_tree {[ "A" := {[ "B" ]} ]} eq_refl)
    as (_ & _ & _ & H & _).
  apply H; [by vm_compute | vm_compute; by eexists].
Defined.

(** ** Subscripts and the mapping form *)

Lemma subscript_with_missing {A B} (f : A → result B) k (d : list (string * A)) :
  k ∉ dict_keys d → subscript_with f k d = throw (KeyError k).
Proof.
  unfold dict_keys. induction d as [|[k' v] d IH]; simpl; [done|].
  intros Hnotin. destruct (String.eqb_spec k k') as [->|Hne].
  - exfalso. apply Hnotin. left.
  - apply IH. intros H. apply Hnotin. by right.
Qed.

Lemma subscript_present {A} k (d : list (string * A)) :
  k ∈ dict_keys d → ∃ v, subscript k d = inr v ∧ (k, v) ∈ d.
Proof.
  unfold dict_keys, subscript. induction d as [|[k' v] d IH]; simpl.
  - by intros ?%elem_of_nil.
  - intros Hin. destruct (String.eqb_spec k k') as [->|Hne].
    + exists v. split; [done | left].
    + apply elem_of_cons in Hin as [?|Hin]; [done|].
      destruct (IH Hin) as (v' & Hv' & Hin'). exists v'. split; [done | by right].
Qed.

Lemma subscript_with_found {A B} (f : A → result B) k (d : list (string * A)) v :
  subscript k d = inr v → subscript_with f k d = f v.
Proof.
  unfold subscript. induction d as [|[k' v'] d IH]; simpl; [done|].
  destruct (String.eqb k k'); [by intros [= ->] | done].
Qed.

Section MoreParsingFacts.

Variable FilterType_match_str : string → option FilterType.
Variable FilterStrategy_match_str : string → option FilterStrategy.
Variable pydantic_int : pyval → option Z.

Local Abbreviation parse_one := (one_from_input FilterType_match_str pydantic_int).
Local Abbreviation parse_dict := (from_dict FilterType_match_str pydantic_int).
Local Abbreviation parse_options :=
  (FilterOptions_from_dict FilterStrategy_match_str).

(** X17: for the kind CUI_AND_CHILDREN a mapping without ['depth'] raises
    [KeyError('depth')], and a mapping with ['depth'] but without ['cui']
    raises [KeyError('cui')]; the depth is looked up first. *)
Theorem one_from_input_missing_keys (target_type : string)
    (d : list (string * pyval)) :
  FilterType_match_str target_type = Some CUI_AND_CHILDREN →
  ("depth" ∉ dict_keys d →
   parse_one target_type (PDict d) = throw (KeyError "depth")) ∧
  ("depth" ∈ dict_keys d → "cui" ∉ dict_keys d →
   parse_one target_type (PDict d) = throw (KeyError "cui")).
Proof.
  intros Hk. split.
  - intros Hd. simpl. unfold match_type. rewrite Hk. simpl.
    unfold subscript. by rewrite subscript_with_missing.
  - intros Hd Hc. simpl. unfold match_type. rewrite Hk. simpl.
    destruct (subscript_present _ _ Hd) as (v & -> & _). simpl.
    by rewrite subscript_with_missing.
Qed.

(** X18: for the kind CUI_AND_CHILDREN, a mapping whose ['depth'] passes
    as the integer [n] gives the hierarchical filter of depth [n] whose
    delegate is what the value under ['cui'] alone gives for the same kind
    name: a string or a list give a simple delegate with those values, a
    mapping gives a hierarchical delegate.  If the value under ['cui']
    gives no filter, the error is that of the delegate. *)
Theorem one_from_input_mapping (target_type : string) (d : list (string * pyval))
    (dv cv : pyval) (n : Z) :
  FilterType_match_str target_type = Some CUI_AND_CHILDREN →
  subscript "depth" d = inr dv → pydantic_int dv = Some n →
  subscript "cui" d = inr cv →
  (∀ delegate, parse_one target_type cv = inr delegate →
     parse_one target_type (PDict d) =
     ret (CUIWithChildFilter CUI_AND_CHILDREN delegate n [])) ∧
  (∀ e, parse_one target_type cv = inl e →
     parse_one target_type (PDict d) = inl e) ∧
  (∀ s, cv = PStr s →
     parse_one target_type (PDict d) =
     ret (CUIWithChildFilter CUI_AND_CHILDREN
            (TypedFilter CUI_AND_CHILDREN [s]) n [])) ∧
  (∀ l, cv = PList l →
     parse_one target_type (PDict d) =
     ret (CUIWithChildFilter CUI_AND_CHILDREN
            (TypedFilter CUI_AND_CHILDREN l) n [])).
Proof.
  intros Hk Hd Hn Hc.
  assert (Hgen : ∀ delegate, parse_one target_type cv = inr delegate →
     parse_one target_type (PDict d) =
     ret (CUIWithChildFilter CUI_AND_CHILDREN delegate n [])).
  { intros delegate Hdel. simpl. unfold match_type. rewrite Hk. simpl.
    rewrite Hd. simpl. rewrite (subscript_with_found _ _ _ _ Hc). 
    rewrite Hdel. simpl. unfold validate_int. by rewrite Hn. }
  split; [done|]. split; [|split].
  - intros e He. simpl. unfold match_type. rewrite Hk. simpl.
    rewrite Hd. simpl. rewrite (subscript_with_found _ _ _ _ Hc). 
    by rewrite He.
  - intros s ->. apply Hgen. by apply one_from_input_str.
  - intros l ->. apply Hgen. by apply one_from_input_list.
Qed.

Lemma from_dict_inr input fs :
  parse_dict input = inr fs ↔
  Forall2 (fun e f => parse_one e.1 e.2 = inr f) input fs.
Proof.
  revert fs. induction input as [|[k v] input IH]; intros fs; simpl.
  - split; [intros [= <-]; constructor | by inversion 1].
  - destruct (parse_one k v) as [e|f] eqn:Hf; simpl.
    + split; [done|]. inversion 1 as [|? y ? fs'' Hy Hrest']; subst. simpl in Hy.
      rewrite Hf in Hy. discriminate.
    + destruct (parse_dict input) as [e|fs'] eqn:Hrest; simpl.
      * split; [done|]. inversion 1 as [|? y ? fs'' Hy Hrest']; subst.
        apply IH in Hrest'. discriminate.
      * split.
        -- intros [= <-]. constructor; [done | by apply IH].
        -- inversion 1 as [|? y ? fs'' Hy Hrest']; subst. simpl in Hy.
           apply IH in Hrest'. rewrite Hf in Hy.
           by injection Hy as <-; injection Hrest' as <-.
Qed.

(** X19: [from_dict] gives one filter per entry of the dict, in the order
    of the entries, each what [one_from_input] gives for the entry; when it
    raises, the error is that of an entry. *)
Theorem from_dict_pointwise (input : list (string * pyval)) :
  (∀ fs, parse_dict input = inr fs ↔
         Forall2 (fun e f => parse_one e.1 e.2 = inr f) input fs) ∧
  (∀ fs, parse_dict input = inr fs → List.length fs = List.length input) ∧
  (∀ e, parse_dict input = inl e →
        ∃ entry, entry ∈ input ∧ parse_one entry.1 entry.2 = inl e).
Proof.
  split; [intros fs; apply from_dict_inr|]. split.
  - intros fs H%from_dict_inr. symmetry. by eapply Forall2_length.
  - induction input as [|[k v] input IH]; intros e; simpl; [done|].
    destruct (parse_one k v) as [e'|f] eqn:Hf; simpl.
    + intros [= <-]. exists (k, v). split; [left | done].
    + destruct (parse_dict input) as [e'|fs'] eqn:Hrest; simpl; [|done].
      intros [= <-]. destruct (IH e' eq_refl) as (entry & Hin & He).
      exists entry. split; [by right | done].
Qed.

(** X20: without ['strategy'] in the section [FilterOptions.from_dict]
    does not raise and takes ALL; with it, the strategy is what the name
    resolves to, and the call raises only when the name does not resolve.
    [onlyprefnames] is true exactly when the section has a
    ['prefname-only'] whose lower-cased value is ['true']; any other value
    gives false, not an error. *)
Theorem FilterOptions_from_dict_cases (section : gmap string string) :
  ∃ flag : bool,
    (flag = true ↔ ∃ s, section !! "prefname-only" = Some s ∧ lower s = "true") ∧
    (section !! "strategy" = None →
     parse_options section = ret (mkFilterOptions ALL flag)) ∧
    (∀ s k, section !! "strategy" = Some s → FilterStrategy_match_str s = Some k →
     parse_options section = ret (mkFilterOptions k flag)) ∧
    (∀ s, section !! "strategy" = Some s →
     (FilterStrategy_match_str s = None ↔ ∃ e, parse_options section = inl e)).
Proof.
  exists (match section !! "prefname-only" with
          | Some s => String.eqb (lower s) "true"
          | None => false
          end).
  split; [|unfold FilterOptions_from_dict; split; [|split]].
  - destruct (section !! "prefname-only") as [s|].
    + rewrite String.eqb_eq. split; [eauto | by intros (s' & [= <-] & ?)].
    + split; [done | by intros (s' & ? & _)].
  - by intros ->.
  - intros s k -> Hk. unfold match_strategy. by rewrite Hk.
  - intros s ->. unfold match_strategy.
    destruct (FilterStrategy_match_str s); simpl; split; try done.
    + by intros [e ?].
    + eauto.
Qed.

End MoreParsingFacts.

Lemma one_from_input_missing_keys_witness :
  one_from_input loose_type int_only "cui_and_children" (PDict [("cui", PStr "C1")]) =
    throw (KeyError "depth") ∧
  one_from_input loose_type int_only "cui_and_children" (PDict [("depth", PInt 2)]) =
    throw (KeyError "cui").
Proof.
  split.
  - apply (one_from_input_missing_keys loose_type int_only "cui_and_children"
             [("cui", PStr "C1")] eq_refl).
    intros H. apply (bool_decide_pack _) in H. by vm_compute in H.
  - apply (one_from_input_missing_keys loose_type int_only "cui_and_children"
             [("depth", PInt 2)] eq_refl).
    + apply (bool_decide_unpack _). by vm_compute.
    + intros H. apply (bool_decide_pack _) in H. by vm_compute in H.
Defined.

Lemma one_from_input_mapping_witness :
  one_from_input loose_type int_only "cui_and_children"
    (PDict [("depth", PInt 2);
            ("cui", PDict [("depth", PInt 1); ("cui", PStr "C1")])]) =
  ret (CUIWithChildFilter CUI_AND_CHILDREN
         (CUIWithChildFilter CUI_AND_CHILDREN
            (TypedFilter CUI_AND_CHILDREN ["C1"]) 1 []) 2 []).
Proof.
  apply (proj1 (one_from_input_mapping loose_type int_only "cui_and_children"
                  [("depth", PInt 2);
                   ("cui", PDict [("depth", PInt 1); ("cui", PStr "C1")])]
                  (PInt 2) (PDict [("depth", PInt 1); ("cui", PStr "C1")]) 2
                  eq_refl eq_refl eq_refl eq_refl)).
  reflexivity.
Defined.

Lemma from_dict_pointwise_witness :
  List.length [TypedFilter NAME ["fever"]; TypedFilter CUI ["C1"]] =
  List.length [("name", PStr "fever"); ("cui", PList ["C1"])].
Proof.
  apply (proj1 (proj2 (from_dict_pointwise loose_type int_only
                         [("name", PStr "fever"); ("cui", PList ["C1"])]))).
  reflexivity.
Defined.

Lemma FilterOptions_from_dict_cases_witness :
  ∃ flag : bool,
    (flag = true ↔
     ∃ s, ({[ "prefname-only" := "TRUE" ]} : gmap string string) !! "prefname-only" = Some s ∧
          lower s = "true") ∧
    FilterOptions_from_dict loose_strategy {[ "prefname-only" := "TRUE" ]} =
      ret (mkFilterOptions ALL flag).
Proof.
  destruct (FilterOptions_from_dict_cases loose_strategy {[ "prefname-only" := "TRUE" ]})
    as (flag & Hflag & Hdefault & _).
  exists flag. split; [exact Hflag | apply Hdefault; by vm_compute].
Defined.

(** ** Several filters in one dict *)

Lemma to_dict_entry f :
  to_dict f = [(FilterType_name (filter_type f), filter_payload f)].
Proof. by destruct f. Qed.

Lemma FilterType_name_inj k1 k2 :
  FilterType_name k1 = FilterType_name k2 → k1 = k2.
Proof. by destruct k1, k2. Qed.

Lemma dict_get_set {A} j k (v : A) (d : list (string * A)) :
  dict_get j (dict_set k v d) = if decide (j = k) then Some v else dict_get j d.
Proof.
  induction d as [|[k' v'] d IH]; simpl.
  - destruct (String.eqb_spec j k); by destruct (decide (j = k)).
  - destruct (String.eqb_spec k k') as [<-|Hkk']; simpl.
    + destruct (String.eqb_spec j k); by destruct (decide (j = k)).
    + rewrite IH. destruct (String.eqb_spec j k') as [->|]; [|done].
      by destruct (decide (k' = k)).
Qed.

Lemma dict_keys_set {A} k (v : A) (d : list (string * A)) :
  dict_keys (dict_set k v d) =
  if bool_decide (k ∈ dict_keys d) then dict_keys d else dict_keys d ++ [k].
Proof.
  unfold dict_keys. induction d as [|[k' v'] d IH]; [done|].
  cbn [dict_set]. destruct (String.eqb_spec k k') as [<-|Hkk'];
    rewrite !fmap_cons; cbn [fst].
  - rewrite bool_decide_eq_true_2; [done | left].
  - rewrite IH. destruct (bool_decide_reflect (k ∈ d.*1)) as [Hin|Hnotin].
    + rewrite bool_decide_eq_true_2; [done | by right].
    + rewrite bool_decide_eq_false_2; [done|]. by intros [?|?]%elem_of_cons.
Qed.

Lemma list_to_dict_snoc fs f :
  list_to_dict (fs ++ [f]) =
  dict_set (FilterType_name (filter_type f)) (filter_payload f) (list_to_dict fs).
Proof.
  unfold list_to_dict, list_to_dicts. rewrite map_app, foldl_app. simpl.
  by rewrite to_dict_entry.
Qed.

Lemma list_to_dict_keys fs key :
  key ∈ dict_keys (list_to_dict fs) ↔
  ∃ f, f ∈ fs ∧ key = FilterType_name (filter_type f).
Proof.
  induction fs as [|f fs IH] using rev_ind.
  - split; [by intros ?%elem_of_nil | by intros (f & ?%elem_of_nil & _)].
  - rewrite list_to_dict_snoc, dict_keys_set.
    destruct (bool_decide_reflect
                (FilterType_name (filter_type f) ∈ dict_keys (list_to_dict fs)))
      as [Hin|Hnotin].
    + rewrite IH. split.
      * intros (f' & Hf' & ->). exists f'. split; [|done].
        apply elem_of_app. by left.
      * intros (f' & Hf' & ->). apply elem_of_app in Hf' as [Hf'|Hf'].
        -- eauto.
        -- apply list_elem_of_singleton in Hf' as ->. by apply IH.
    + rewrite elem_of_app, IH, list_elem_of_singleton. split.
      * intros [(f' & Hf' & ->) | ->].
        -- exists f'. split; [|done]. apply elem_of_app. by left.
        -- exists f. split; [|done]. apply elem_of_app. right. left.
      * intros (f' & Hf' & ->). apply elem_of_app in Hf' as [Hf'|Hf'].
        -- left. eauto.
        -- apply list_elem_of_singleton in Hf' as ->. by right.
Qed.

Lemma list_to_dict_NoDup fs : NoDup (dict_keys (list_to_dict fs)).
Proof.
  induction fs as [|f fs IH] using rev_ind; [constructor|].
  rewrite list_to_dict_snoc, dict_keys_set.
  destruct (bool_decide_reflect
              (FilterType_name (filter_type f) ∈ dict_keys (list_to_dict fs)))
    as [Hin|Hnotin]; [done|].
  apply NoDup_app. split; [done|]. split; [|apply NoDup_singleton].
  by intros x Hx ->%list_elem_of_singleton.
Qed.

Lemma kind_in_keys fs f :
  FilterType_name (filter_type f) ∈ dict_keys (list_to_dict fs) ↔
  filter_type f ∈ filter_type <$> fs.
Proof.
  rewrite list_to_dict_keys, list_elem_of_fmap. split.
  - intros (f' & Hf' & Hn%FilterType_name_inj). eauto.
  - intros (f' & -> & Hf'). eauto.
Qed.

Lemma list_to_dict_length fs :
  (List.length (list_to_dict fs) ≤ List.length fs)%nat ∧
  (List.length (list_to_dict fs) = List.length fs ↔ NoDup (filter_type <$> fs)).
Proof.
  induction fs as [|f fs [IHle IHeq]] using rev_ind.
  - split; [done|]. split; [constructor | done].
  - assert (Hlen : List.length (list_to_dict (fs ++ [f])) =
                   List.length (dict_keys (list_to_dict (fs ++ [f]))))
      by (unfold dict_keys; by rewrite length_fmap).
    assert (Hlen' : List.length (list_to_dict fs) =
                    List.length (dict_keys (list_to_dict fs)))
      by (unfold dict_keys; by rewrite length_fmap).
    rewrite Hlen, list_to_dict_snoc, dict_keys_set, fmap_app, !length_app.
    simpl. rewrite NoDup_app.
    destruct (bool_decide_reflect
                (FilterType_name (filter_type f) ∈ dict_keys (list_to_dict fs)))
      as [Hin|Hnotin].
    + rewrite <- Hlen'. split; [lia|]. split; [lia|].
      intros (_ & Hdisj & _). apply kind_in_keys in Hin.
      exfalso. apply (Hdisj _ Hin). left.
    + rewrite length_app. simpl. rewrite <- Hlen'. split; [lia|].
      split.
      * intros H. split; [apply IHeq; lia|]. split; [|apply NoDup_singleton].
        intros k Hk ->%list_elem_of_singleton. by apply Hnotin, kind_in_keys.
      * intros (Hnd & _ & _). apply IHeq in Hnd. lia.
Qed.

(** X21: the dict [list_to_dict] builds has one entry per kind that occurs
    among the filters, under the name of the kind; a later filter of a
    kind replaces the entry of an earlier one (a filter added at the end
    sets the value under its kind and leaves the other keys alone); so the
    dict has as many entries as there are filters only when their kinds
    are all different. *)
Theorem list_to_dict_last_wins (fs : list Filter) (f : Filter) (key : string) :
  NoDup (dict_keys (list_to_dict fs)) ∧
  (key ∈ dict_keys (list_to_dict fs) ↔
   ∃ f', f' ∈ fs ∧ key = FilterType_name (filter_type f')) ∧
  dict_get key (list_to_dict (fs ++ [f])) =
    (if decide (key = FilterType_name (filter_type f))
     then Some (filter_payload f)
     else dict_get key (list_to_dict fs)) ∧
  (List.length (list_to_dict fs) ≤ List.length fs)%nat ∧
  (List.length (list_to_dict fs) = List.length fs ↔ NoDup (filter_type <$> fs)).
Proof.
  split; [apply list_to_dict_NoDup|]. split; [apply list_to_dict_keys|].
  split; [|apply list_to_dict_length].
  by rewrite list_to_dict_snoc, dict_get_set.
Qed.

Lemma list_to_dict_distinct fs :
  NoDup (filter_type <$> fs) →
  list_to_dict fs =
  (fun f => (FilterType_name (filter_type f), filter_payload f)) <$> fs.
Proof.
  induction fs as [|f fs IH] using rev_ind; [done|].
  rewrite fmap_app. intros (Hnd & Hdisj & _)%NoDup_app.
  rewrite list_to_dict_snoc, fmap_app. simpl.
  assert (Hnotin : FilterType_name (filter_type f) ∉ dict_keys (list_to_dict fs)).
  { intros Hin%kind_in_keys. apply (Hdisj _ Hin). left. }
  rewrite <- (IH Hnd). clear -Hnotin.
  induction (list_to_dict fs) as [|[k' v'] d IHd]; simpl; [done|].
  destruct (String.eqb_spec (FilterType_name (filter_type f)) k') as [He|Hne].
  - exfalso. apply Hnotin. rewrite He. left.
  - rewrite IHd; [done|]. intros H. apply Hnotin. by right.
Qed.

Section ListRoundTrip.

Variable FilterType_match_str : string → option FilterType.
Variable pydantic_int : pyval → option Z.

Hypothesis match_type_name :
  ∀ k, FilterType_match_str (FilterType_name k) = Some k.
Hypothesis pydantic_int_int : ∀ z, pydantic_int (PInt z) = Some z.

Lemma entry_round_trip f :
  well_formed f →
  ∃ f', one_from_input FilterType_match_str pydantic_int
          (FilterType_name (filter_type f)) (filter_payload f) = inr f' ∧
        equivalent f f'.
Proof.
  destruct f as [k vs | k delegate depth vs]; simpl.
  - intros _. exists (TypedFilter k vs). split; [|done].
    unfold match_type. by rewrite match_type_name.
  - intros [-> ->].
    exists (CUIWithChildFilter CUI_AND_CHILDREN
              (TypedFilter CUI_AND_CHILDREN (filter_values delegate)) depth []).
    split; [|done].
    pose proof (match_type_name CUI_AND_CHILDREN) as Hk. simpl in Hk.
    simpl. unfold match_type. rewrite Hk. simpl. unfold validate_int.
    by rewrite pydantic_int_int.
Qed.

(** X22: when the matchers recognise the member names and an [int] passes
    as the depth, a list of filters of pairwise different kinds (the
    hierarchical ones of kind CUI_AND_CHILDREN, without values of their
    own) is read back from [list_to_dict] filter by filter, in the same
    order, each equivalent to the one serialized. *)
Theorem list_to_dict_round_trip (fs : list Filter) :
  NoDup (filter_type <$> fs) → Forall well_formed fs →
  ∃ fs', from_dict FilterType_match_str pydantic_int (list_to_dict fs) = ret fs' ∧
         Forall2 equivalent fs fs'.
Proof.
  intros Hnd Hwf. rewrite (list_to_dict_distinct fs Hnd). clear Hnd.
  induction Hwf as [|f fs Hf Hwf (fs' & Hfs' & Heq)].
  - exists []. split; [done | constructor].
  - destruct (entry_round_trip f Hf) as (f' & Hf' & Hequiv).
    exists (f' :: fs'). split; [|by constructor].
    rewrite fmap_cons. cbn [from_dict]. rewrite Hf'. cbn [rbind].
    by rewrite Hfs'.
Qed.

End ListRoundTrip.

Lemma list_to_dict_round_trip_witness :
  ∃ fs', from_dict loose_type int_only
           (list_to_dict [TypedFilter NAME ["fever"]; A_and_children]) = ret fs' ∧
         Forall2 equivalent [TypedFilter NAME ["fever"]; A_and_children] fs'.
Proof.
  apply (list_to_dict_round_trip loose_type int_only loose_type_name
           (fun z => eq_refl) [TypedFilter NAME ["fever"]; A_and_children]).
  - apply (bool_decide_unpack _). by vm_compute.
  - repeat constructor.
Defined.

(** ** Serialized options *)

Lemma FilterStrategy_name_inj s1 s2 :
  FilterStrategy_name s1 = FilterStrategy_name s2 → s1 = s2.
Proof. by destruct s1, s2. Qed.

Lemma str_bool_inj b1 b2 : str_bool b1 = str_bool b2 → b1 = b2.
Proof. by destruct b1, b2. Qed.

(** X23: the dict of [FilterOptions.to_dict] has the two keys ['strategy']
    and ['prefname-only'] and no other, holding the name of the strategy
    and ['True'] or ['False']; different options give different dicts. *)
Theorem FilterOptions_to_dict_shape (o : FilterOptions) :
  FilterOptions_to_dict o !! "strategy" = Some (FilterStrategy_name (strategy o)) ∧
  FilterOptions_to_dict o !! "prefname-only" =
    Some (if onlyprefnames o then "True" else "False") ∧
  dom (FilterOptions_to_dict o) = {[ "strategy"; "prefname-only" ]} ∧
  ∀ o', FilterOptions_to_dict o = FilterOptions_to_dict o' → o = o'.
Proof.
  assert (Hs : ∀ x, FilterOptions_to_dict x !! "strategy" =
                    Some (FilterStrategy_name (strategy x))).
  { intros x. unfold FilterOptions_to_dict.
    rewrite lookup_insert_ne by done. apply lookup_insert_eq. }
  assert (Hp : ∀ x, FilterOptions_to_dict x !! "prefname-only" =
                    Some (str_bool (onlyprefnames x))).
  { intros x. unfold FilterOptions_to_dict. apply lookup_insert_eq. }
  split; [apply Hs|]. split; [apply Hp|]. split.
  - unfold FilterOptions_to_dict. rewrite !dom_insert_L, dom_empty_L. set_solver.
  - intros o' Heq. destruct o as [s b], o' as [s' b'].
    pose proof (Hs (mkFilterOptions s b)) as H1. rewrite Heq, Hs in H1.
    pose proof (Hp (mkFilterOptions s b)) as H2. rewrite Heq, Hp in H2.
    simpl in *. injection H1 as H1%FilterStrategy_name_inj.
    injection H2 as H2%str_bool_inj. by subst.
Qed.

(** ** Printed targets *)

Lemma append_last_inj a s1 s2 :
  s1 +:+ String a "" = s2 +:+ String a "" → s1 = s2.
Proof.
  revert s2. induction s1 as [|b s1 IH]; intros [|b' s2]; simpl; try done.
  - intros [= _ H]. by destruct s2.
  - intros [= _ H]. by destruct s1.
  - intros [= -> H]. by rewrite (IH s2 H).
Qed.

Lemma split_at_first a c c' r r' :
  mentions a c = false → mentions a c' = false →
  c +:+ String a r = c' +:+ String a r' → c = c' ∧ r = r'.
Proof.
  revert c'. induction c as [|b c IH]; intros [|b' c']; simpl.
  - intros _ _ [= ->]. by split.
  - intros _ [Hb _]%orb_false_elim [= <- _]. by rewrite Ascii.eqb_refl in Hb.
  - intros [Hb _]%orb_false_elim _ [= -> _]. by rewrite Ascii.eqb_refl in Hb.
  - intros [_ Hc]%orb_false_elim [_ Hc']%orb_false_elim [= -> H].
    destruct (IH c' Hc Hc' H) as [-> ->]. by split.
Qed.

(** X24: the printed forms tell two targets apart when their concept-ids
    hold no colon: equal [__str__] (or [__repr__]) then means equal
    concept-id and name.  Without that they need not: ("a", "b:c") and
    ("a:b", "c") print alike. *)
Theorem TargetInfo_str_injective (t1 t2 : TargetInfo) :
  (mentions ":" (cui t1) = false → mentions ":" (cui t2) = false →
   TargetInfo_str t1 = TargetInfo_str t2 → t1 = t2) ∧
  (mentions ":" (cui t1) = false → mentions ":" (cui t2) = false →
   TargetInfo_repr t1 = TargetInfo_repr t2 → t1 = t2) ∧
  TargetInfo_str (mkTargetInfo "a" "b:c") = TargetInfo_str (mkTargetInfo "a:b" "c").
Proof.
  assert (Hstr : mentions ":" (cui t1) = false → mentions ":" (cui t2) = false →
                 TargetInfo_str t1 = TargetInfo_str t2 → t1 = t2).
  { intros H1 H2. destruct t1 as [c1 v1], t2 as [c2 v2]. unfold TargetInfo_str.
    simpl in *. intros [= H].
    apply split_at_first in H as [-> H]; [|done..].
    by apply append_last_inj in H as ->. }
  split; [done|]. split; [|done].
  intros H1 H2 H. apply Hstr; [done | done |].
  assert (Hhead : ∀ x y, "<" +:+ x = "<" +:+ y → x = y)
    by (intros x y Hxy; simpl in Hxy; by injection Hxy).
  apply (append_last_inj ">"%char), Hhead, H.
Qed.

Lemma TargetInfo_str_injective_witness :
  TargetInfo_str (mkTargetInfo "C1" "fever") = "TI[C1:fever]" ∧
  mkTargetInfo "C1" "fever" = mkTargetInfo "C1" "fever".
Proof.
  split; [reflexivity|].
  apply (proj1 (TargetInfo_str_injective (mkTargetInfo "C1" "fever")
                  (mkTargetInfo "C1" "fever"))); reflexivity.
Defined.

Lemma FilterOptions_to_dict_shape_witness :
  mkFilterOptions ANY true = mkFilterOptions ANY true.
Proof.
  apply (proj2 (proj2 (proj2 (FilterOptions_to_dict_shape (mkFilterOptions ANY true))))).
  reflexivity.
Defined.

(** ** What a round trip keeps *)

Section ExactRoundTrip.

Variable FilterType_match_str : string → option FilterType.
Variable pydantic_int : pyval → option Z.

Hypothesis match_type_name :
  ∀ k, FilterType_match_str (FilterType_name k) = Some k.
Hypothesis pydantic_int_int : ∀ z, pydantic_int (PInt z) = Some z.

Lemma read_back_hierarchical delegate depth vs :
  from_dict FilterType_match_str pydantic_int
    (to_dict (CUIWithChildFilter CUI_AND_CHILDREN delegate depth vs)) =
  ret [CUIWithChildFilter CUI_AND_CHILDREN
         (TypedFilter CUI_AND_CHILDREN (filter_values delegate)) depth []].
Proof.
  pose proof (match_type_name CUI_AND_CHILDREN) as Hk. simpl in Hk.
  simpl. unfold match_type. rewrite Hk. simpl.
  unfold validate_int. by rewrite pydantic_int_int.
Qed.

(** X25: when the matchers recognise the member names and an [int] passes
    as the depth, a filter [one_from_input] built whose delegate, if it has
    one, is a simple filter is read back from its own [to_dict] exactly.
    A delegate that is itself hierarchical is not: what is read back has
    in its place a simple filter holding that delegate's own values, so
    the inner depth and the inner delegate are lost. *)
Theorem to_dict_exact_or_flattened :
  (∀ target_type vals f,
     one_from_input FilterType_match_str pydantic_int target_type vals = inr f →
     (∀ d, filter_delegate f = Some d → filter_delegate d = None) →
     from_dict FilterType_match_str pydantic_int (to_dict f) = ret [f]) ∧
  (∀ k inner inner_depth inner_vs depth vs,
     from_dict FilterType_match_str pydantic_int
       (to_dict (CUIWithChildFilter CUI_AND_CHILDREN
                   (CUIWithChildFilter k inner inner_depth inner_vs) depth vs)) =
     ret [CUIWithChildFilter CUI_AND_CHILDREN
            (TypedFilter CUI_AND_CHILDREN inner_vs) depth []]).
Proof.
  split.
  - intros target_type vals f H Hsimple.
    destruct vals as [s|z|l|d].
    + destruct (one_from_input_matched _ _ _ _ _ H) as [k Hk].
      rewrite (one_from_input_str _ _ _ _ _ Hk) in H. injection H as <-.
      simpl. unfold match_type. by rewrite match_type_name.
    + simpl in H. unfold match_type in H.
      by destruct (FilterType_match_str target_type).
    + destruct (one_from_input_matched _ _ _ _ _ H) as [k Hk].
      rewrite (one_from_input_list _ _ _ _ _ Hk) in H. injection H as <-.
      simpl. unfold match_type. by rewrite match_type_name.
    + apply one_from_input_dict in H
        as (v & delegate & depth & Hk & _ & Hdel & ->).
      rewrite read_back_hierarchical.
      specialize (Hsimple delegate eq_refl).
      destruct delegate as [k' vs' | ]; [|done]. simpl.
      apply (one_from_input_type _ _ _ _ _ _ Hk) in Hdel. simpl in Hdel.
      by rewrite Hdel.
  - intros. apply read_back_hierarchical.
Qed.

End ExactRoundTrip.

Lemma to_dict_exact_or_flattened_witness :
  from_dict loose_type int_only (to_dict A_and_children) = ret [A_and_children].
Proof.
  apply (proj1 (to_dict_exact_or_flattened loose_type int_only loose_type_name
                  (fun z => eq_refl))
           "CUI_AND_CHILDREN" (PDict [("depth", PInt 1); ("cui", PList ["A"])])).
  - reflexivity.
  - by intros d [= <-].
Defined.

(** ** The depth of the hierarchical filter *)

Lemma for_gen_map_yields_on {A B} (g : Gen.t A) (body : A → Gen.t B)
    (f : A → list B) :
  (∀ x, x ∈ Gen.yields g → body x = Gen.Mk (f x) None) →
  Gen.for_gen g body = Gen.Mk (flat_map f (Gen.yields g)) (Gen.outcome g).
Proof.
  intros H. rewrite <- (for_gen_map_yields g (fun x => Gen.Mk (f x) None) f) by done.
  unfold Gen.for_gen. f_equal. by apply for_list_ext.
Qed.

Lemma children_of_entry t c children :
  cui2children t !! c = Some children → children_of t c = children.
Proof. intros H. unfold children_of. by rewrite H. Qed.

Lemma expansion_depth_1 t ti :
  expandable_1 t (cui ti) →
  Gen.seq (Gen.yield ti) (get_children_of 1 t (cui ti) 1) =
  Gen.Mk (expand_1 t ti) None.
Proof.
  intros [[children Hc] Hn]. unfold expand_1.
  rewrite (children_of_entry _ _ _ Hc) in *.
  by rewrite (get_children_of_depth_1 t (cui ti) children Hc Hn).
Qed.

Lemma expansion_depth_2 t ti :
  expandable_2 t (cui ti) →
  Gen.seq (Gen.yield ti) (get_children_of 2 t (cui ti) 1) =
  Gen.Mk (expand_2 t ti) None.
Proof.
  intros [[children Hc] Hn]. unfold expand_2.
  rewrite (children_of_entry _ _ _ Hc) in *.
  by rewrite (get_children_of_depth_2 t (cui ti) children Hc Hn).
Qed.

(** C5: on names {A: a, B: b, C: c} and children {A: {B, C}} the delegate
    of the filter with depth 1 and values [A] accepts (A, a) alone out of
    [all_targets()], and the filter finishes with the three pairs (A, a),
    (B, b), (C, c), in some order.  In general, on tables that have the
    entries the expansion looks up, a hierarchical filter of depth 1 yields
    each target its delegate accepts followed by the targets of the direct
    children of its concept, and nothing else; at depth 2 it yields, after
    the targets of each child, those of the children of that child as
    well.  So on root → mid → leaf the filter on [root] yields the targets
    of root and mid at depth 1, and those of leaf too at depth 2. *)
Theorem children_depth_inclusive :
  (∀ n2c types,
     let t := abc_layer n2c types in
     Gen.yields (get_applicable_targets (TypedFilter CUI_AND_CHILDREN ["A"]) t
                   (all_targets t)) = [mkTargetInfo "A" "a"] ∧
     Gen.yields (get_applicable_targets A_and_children t (all_targets t)) ≡ₚ
       [mkTargetInfo "A" "a"; mkTargetInfo "B" "b"; mkTargetInfo "C" "c"] ∧
     Gen.outcome (get_applicable_targets A_and_children t (all_targets t)) = None) ∧
  (∀ k delegate vs t g,
     (∀ ti, ti ∈ Gen.yields (get_applicable_targets delegate t g) →
            expandable_1 t (cui ti)) →
     get_applicable_targets (CUIWithChildFilter k delegate 1 vs) t g =
     Gen.Mk (flat_map (expand_1 t) (Gen.yields (get_applicable_targets delegate t g)))
            (Gen.outcome (get_applicable_targets delegate t g))) ∧
  (∀ k delegate vs t g,
     (∀ ti, ti ∈ Gen.yields (get_applicable_targets delegate t g) →
            expandable_2 t (cui ti)) →
     get_applicable_targets (CUIWithChildFilter k delegate 2 vs) t g =
     Gen.Mk (flat_map (expand_2 t) (Gen.yields (get_applicable_targets delegate t g)))
            (Gen.outcome (get_applicable_targets delegate t g))) ∧
  (Gen.yields (get_applicable_targets (root_and_children 1) family (all_targets family)) ≡ₚ
     [mkTargetInfo "root" "r"; mkTargetInfo "mid" "m"] ∧
   Gen.yields (get_applicable_targets (root_and_children 2) family (all_targets family)) ≡ₚ
     [mkTargetInfo "root" "r"; mkTargetInfo "mid" "m"; mkTargetInfo "leaf" "l"]).
Proof.
  split; [|split; [|split]].
  - intros n2c types t. split; [by vm_compute|]. split.
    + apply (bool_decide_unpack _). by vm_compute.
    + by vm_compute.
  - intros k delegate vs t g H. simpl.
    apply for_gen_map_yields_on. intros ti Hti. by apply expansion_depth_1, H.
  - intros k delegate vs t g H. simpl.
    apply for_gen_map_yields_on. intros ti Hti. by apply expansion_depth_2, H.
  - split; apply (bool_decide_unpack _); by vm_compute.
Qed.

Lemma abc_A_expandable : expandable_1 abc "A".
Proof.
  split; [vm_compute; by eexists|].
  assert (children_of abc "A" = {[ "B"; "C" ]}) as -> by (by vm_compute).
  intros x Hx.
  assert (x = "B" ∨ x = "C") as [-> | ->] by set_solver; vm_compute; by eexists.
Qed.

Lemma family_root_expandable : expandable_2 family "root".
Proof.
  split; [vm_compute; by eexists|].
  assert (children_of family "root" = {[ "mid" ]}) as -> by (by vm_compute).
  intros x ->%elem_of_singleton.
  split; [vm_compute; by eexists|]. split; [vm_compute; by eexists|].
  assert (children_of family "mid" = {[ "leaf" ]}) as -> by (by vm_compute).
  intros y ->%elem_of_singleton. vm_compute; by eexists.
Qed.

Lemma children_depth_inclusive_witness :
  get_applicable_targets A_and_children abc (all_targets abc) =
    Gen.Mk (flat_map (expand_1 abc)
              (Gen.yields (get_applicable_targets (TypedFilter CUI_AND_CHILDREN ["A"])
                             abc (all_targets abc))))
           (Gen.outcome (get_applicable_targets (TypedFilter CUI_AND_CHILDREN ["A"])
                           abc (all_targets abc))) ∧
  get_applicable_targets (root_and_children 2) family (all_targets family) =
    Gen.Mk (flat_map (expand_2 family)
              (Gen.yields (get_applicable_targets (TypedFilter CUI_AND_CHILDREN ["root"])
                             family (all_targets family))))
           (Gen.outcome (get_applicable_targets (TypedFilter CUI_AND_CHILDREN ["root"])
                           family (all_targets family))).
Proof.
  split.
  - apply (proj1 (proj2 children_depth_inclusive)).
    intros ti Hti.
    assert (Gen.yields (get_applicable_targets (TypedFilter CUI_AND_CHILDREN ["A"])
                          abc (all_targets abc)) = [mkTargetInfo "A" "a"])
      as Hy by (by vm_compute).
    rewrite Hy in Hti. apply list_elem_of_singleton in Hti as ->.
    apply abc_A_expandable.
  - apply (proj1 (proj2 (proj2 children_depth_inclusive))).
    intros ti Hti.
    assert (Gen.yields (get_applicable_targets (TypedFilter CUI_AND_CHILDREN ["root"])
                          family (all_targets family)) = [mkTargetInfo "root" "r"])
      as Hy by (by vm_compute).
    rewrite Hy in Hti. apply list_elem_of_singleton in Hti as ->.
    apply family_root_expandable.
Defined.

(** ** Reading back a serialized filter *)

Section ReadBack.

Variable FilterType_match_str : string → option FilterType.
Variable FilterStrategy_match_str : string → option FilterStrategy.
Variable pydantic_int : pyval → option Z.

Hypothesis match_type_name :
  ∀ k, FilterType_match_str (FilterType_name k) = Some k.
Hypothesis match_strategy_name :
  ∀ s, FilterStrategy_match_str (FilterStrategy_name s) = Some s.
Hypothesis pydantic_int_int : ∀ z, pydantic_int (PInt z) = Some z.

Local Abbreviation parse_one := (one_from_input FilterType_match_str pydantic_int).
Local Abbreviation parse_dict := (from_dict FilterType_match_str pydantic_int).
Local Abbreviation parse_options :=
  (FilterOptions_from_dict FilterStrategy_match_str).

Lemma read_back_other_kind k delegate depth vs :
  k ≠ CUI_AND_CHILDREN →
  parse_dict (to_dict (CUIWithChildFilter k delegate depth vs)) =
  throw (ValueError (misconfigured (FilterType_name k))).
Proof.
  intros Hk. cbn [to_dict from_dict].
  by rewrite (one_from_input_dict_other _ _ _ k _ (match_type_name k) Hk).
Qed.

Lemma read_back_built target_type vals f :
  parse_one target_type vals = inr f →
  (∃ k vs, f = TypedFilter k vs) ∨
  (∃ delegate depth, f = CUIWithChildFilter CUI_AND_CHILDREN delegate depth [] ∧
     (filter_delegate delegate = None →
      ∃ vs, delegate = TypedFilter CUI_AND_CHILDREN vs)).
Proof.
  intros H. destruct vals as [s|z|l|d].
  - destruct (one_from_input_matched _ _ _ _ _ H) as [k Hk].
    rewrite (one_from_input_str _ _ _ _ _ Hk) in H. injection H as <-. eauto.
  - simpl in H. unfold match_type in H.
    by destruct (FilterType_match_str target_type).
  - destruct (one_from_input_matched _ _ _ _ _ H) as [k Hk].
    rewrite (one_from_input_list _ _ _ _ _ Hk) in H. injection H as <-. eauto.
  - apply one_from_input_dict in H
      as (v & delegate & depth & Hk & _ & Hdel & ->).
    right. exists delegate, depth. split; [done|].
    apply (one_from_input_type _ _ _ _ _ _ Hk) in Hdel.
    destruct delegate as [k' vs'|]; [|done]. simpl in Hdel. subst. eauto.
Qed.

(** C4, as the code has it: when the matchers recognise the member names
    and an [int] passes as the [depth], reading back the serialized form
    gives exactly the filter for a simple filter, and for a hierarchical
    filter of kind CUI_AND_CHILDREN one filter of the same kind and depth,
    without values of its own, whose delegate is the simple filter of kind
    CUI_AND_CHILDREN with the values of the first delegate.  So every
    filter [one_from_input] builds is read back as an equivalent filter,
    and exactly when its delegate, if it has one, is a simple filter.  A
    hierarchical filter of another kind is not read back: [from_dict]
    raises the [ValueError].  Reading back the serialized form of filter
    options gives the same options. *)
Theorem from_dict_to_dict :
  (∀ k vs, parse_dict (to_dict (TypedFilter k vs)) = ret [TypedFilter k vs]) ∧
  (∀ delegate depth vs,
     parse_dict (to_dict (CUIWithChildFilter CUI_AND_CHILDREN delegate depth vs)) =
     ret [CUIWithChildFilter CUI_AND_CHILDREN
            (TypedFilter CUI_AND_CHILDREN (filter_values delegate)) depth []]) ∧
  (∀ target_type vals f,
     parse_one target_type vals = inr f →
     ∃ f', parse_dict (to_dict f) = ret [f'] ∧ equivalent f f' ∧
           ((∀ d, filter_delegate f = Some d → filter_delegate d = None) → f' = f)) ∧
  (∀ k delegate depth vs,
     k ≠ CUI_AND_CHILDREN →
     parse_dict (to_dict (CUIWithChildFilter k delegate depth vs)) =
     throw (ValueError (misconfigured (FilterType_name k)))) ∧
  (∀ o, parse_options (FilterOptions_to_dict o) = ret o).
Proof.
  split; [|split; [|split; [|split]]].
  - intros k vs. by apply roundtrip_simple.
  - intros delegate depth vs. by apply roundtrip_hierarchical.
  - intros target_type vals f H.
    destruct (read_back_built _ _ _ H)
      as [(k & vs & ->) | (delegate & depth & -> & Hsimple)].
    + exists (TypedFilter k vs). split; [by apply roundtrip_simple|]. by split.
    + eexists. split; [by apply roundtrip_hierarchical|]. split; [done|].
      intros Hd. destruct (Hsimple (Hd delegate eq_refl)) as [vs ->]. done.
  - intros k delegate depth vs Hk. by apply read_back_other_kind.
  - intros o. by apply roundtrip_options.
Qed.

End ReadBack.

Lemma from_dict_to_dict_witness :
  (∃ f', from_dict loose_type int_only (to_dict A_and_children) = ret [f'] ∧
         equivalent A_and_children f' ∧
         ((∀ d, filter_delegate A_and_children = Some d → filter_delegate d = None) →
          f' = A_and_children)) ∧
  from_dict loose_type int_only
    (to_dict (CUIWithChildFilter CUI (TypedFilter CUI ["A"]) 1 [])) =
  throw (ValueError (misconfigured "CUI")).
Proof.
  pose proof (from_dict_to_dict loose_type loose_strategy int_only
                loose_type_name loose_strategy_name (fun z => eq_refl))
    as (_ & _ & Hbuilt & Hother & _).
  split.
  - apply (Hbuilt "CUI_AND_CHILDREN" (PDict [("depth", PInt 1); ("cui", PList ["A"])])).
    reflexivity.
  - apply (Hother CUI). done.
Defined.

(** C4 as stated fails: a hierarchical filter constructed with the kind
    CUI serializes to a mapping under ['CUI'], which [from_dict] refuses
    with the [ValueError]; and the values a hierarchical filter was
    constructed with are not serialized, so they are not read back. *)
Lemma hierarchical_filter_not_read_back :
  from_dict loose_type int_only
    (to_dict (CUIWithChildFilter CUI (TypedFilter CUI ["A"]) 1 [])) =
    throw (ValueError (misconfigured "CUI")) ∧
  (∃ f', from_dict loose_type int_only
           (to_dict (CUIWithChildFilter CUI_AND_CHILDREN
                       (TypedFilter CUI_AND_CHILDREN ["A"]) 1 ["x"])) = ret [f'] ∧
         filter_values f' = [] ∧
         ¬ equivalent (CUIWithChildFilter CUI_AND_CHILDREN
                         (TypedFilter CUI_AND_CHILDREN ["A"]) 1 ["x"]) f') ∧
  ¬ (∀ f, ∃ f', from_dict loose_type int_only (to_dict f) = ret [f'] ∧
                equivalent f f').
Proof.
  split; [reflexivity|]. split.
  - eexists. split; [reflexivity|]. split; [reflexivity|].
    intros (_ & Hv & _). discriminate.
  - intros H.
    destruct (H (CUIWithChildFilter CUI (TypedFilter CUI ["A"]) 1 []))
      as (f' & Hf' & _).
    vm_compute in Hf'. discriminate.
Qed.
